(** * hunspell: the low-level parser of .aff files ([aff_parser.cxx])

    A shallow embedding of [hunspell::aff_parser] and of the part of the
    C++ stream library its member functions call, followed by the
    properties of the parser.

    - characters are [ascii], [std::string] is [string];
    - [std::unordered_map<std::string, std::vector<std::string>>] is
      [gmap string (list string)];
    - a [std::istream] is a record: the characters still to come, how the
      source behaves once they are exhausted, and the three state bits
      the parser tests through [fail()] and [eof()]; its exception mask
      is the default one, so that setting a state bit throws nothing;
    - member functions pass the table explicitly. *)

From Stdlib Require Import Ascii String List Bool Arith Lia.
From stdpp Require Import base option list strings gmap fin_maps.

Local Open Scope stdpp_scope.

(** ** Characters and locales

    [ss >> ws] and [ss >> command] classify whitespace with the [ctype]
    facet of the locale the string stream is imbued with (the global C++
    locale at its construction), and [toupper] is the function of
    [<cctype>], whose result is specified by the current C locale.  Neither
    is set by the parser: both are taken as a parameter. *)

Record locale := Locale {
  isspace : ascii → bool;
  toupper : ascii → ascii
}.

Definition is_lower (c : ascii) : bool :=
  (97 <=? nat_of_ascii c) && (nat_of_ascii c <=? 122).

(** The ASCII transform: [a]..[z] to [A]..[Z], every other character
    unchanged. *)
Definition ascii_toupper (c : ascii) : ascii :=
  if is_lower c then ascii_of_nat (nat_of_ascii c - 32) else c.

(** The "C" locale, in force when a program starts: whitespace is space,
    [\t], [\n], [\v], [\f], [\r]. *)
Definition classic : locale :=
  {| isspace := Ascii.is_space; toupper := ascii_toupper |}.

(** The case mapping of the Turkish locale over ISO-8859-9
    ([tr_TR.ISO-8859-9]): dotless and dotted i are distinct letters, so
    [i] maps to the capital dotted I (byte 221) and the dotless i (byte
    253) maps to [I]; the accented lowercase letters of the upper half map
    32 below. *)
Definition tr_toupper (c : ascii) : ascii :=
  let n := nat_of_ascii c in
  if n =? 105 then ascii_of_nat 221
  else if n =? 253 then "I"%char
  else if is_lower c then ascii_of_nat (n - 32)
  else if (224 <=? n) && (n <=? 254) && negb (n =? 247)
       then ascii_of_nat (n - 32)
  else c.

Definition tr_TR : locale :=
  {| isspace := Ascii.is_space; toupper := tr_toupper |}.



(** ** Strings *)

Fixpoint map_string (f : ascii → ascii) (s : string) : string :=
  match s with
  | "" => ""
  | String c s' => String (f c) (map_string f s')
  end.

Fixpoint forall_string (p : ascii → bool) (s : string) : bool :=
  match s with
  | "" => true
  | String c s' => p c && forall_string p s'
  end.

(** Drop the longest prefix whose characters satisfy [p]. *)
Fixpoint drop_while (p : ascii → bool) (s : string) : string :=
  match s with
  | "" => ""
  | String c s' => if p c then drop_while p s' else s
  end.

(** The longest prefix whose characters satisfy [p]. *)
Fixpoint take_while (p : ascii → bool) (s : string) : string :=
  match s with
  | "" => ""
  | String c s' => if p c then String c (take_while p s') else ""
  end.

(** Characters up to the first [delim]; the rest after it, or [None] when
    the characters run out before a delimiter is seen. *)
Fixpoint read_until (delim : ascii) (s : string) : string * option string :=
  match s with
  | "" => ("", None)
  | String c s' =>
      if Ascii.eqb c delim then ("", Some s')
      else let '(l, r) := read_until delim s' in (String c l, r)
  end.

Definition is_empty (s : string) : bool :=
  match s with "" => true | _ => false end.

(** ** Input streams *)

Record istream := Istream {
  buffer : string;       (* the characters the stream will still deliver *)
  source_fails : bool;   (* past them the source raises an I/O error
                            instead of reporting the end of the input *)
  eofbit : bool;
  failbit : bool;
  badbit : bool
}.

Definition good (s : istream) : bool :=
  negb (eofbit s || failbit s || badbit s).
Definition eof (s : istream) : bool := eofbit s.
Definition fail (s : istream) : bool := failbit s || badbit s.

Definition set_buffer (b : string) (s : istream) : istream :=
  Istream b (source_fails s) (eofbit s) (failbit s) (badbit s).
Definition set_eofbit (s : istream) : istream :=
  Istream (buffer s) (source_fails s) true (failbit s) (badbit s).
Definition set_failbit (s : istream) : istream :=
  Istream (buffer s) (source_fails s) (eofbit s) true (badbit s).
Definition set_badbit (s : istream) : istream :=
  Istream (buffer s) (source_fails s) (eofbit s) (failbit s) true.

(** The stream asked for a character when none is left: the end of the
    input sets [eofbit]; an error of the source surfaces as an exception
    that the extracting function catches, setting [badbit]. *)
Definition underflow (s : istream) : istream :=
  if source_fails s then set_badbit (set_buffer "" s)
  else set_eofbit (set_buffer "" s).

(** [std::stringstream ss(str)]. *)
Definition stringstream (str : string) : istream :=
  Istream str false false false false.

(** [std::getline(is, str)].  The sentry fails on a stream that is not
    [good()]: [failbit] is set and [str] is left as it was.  Otherwise
    [str] is erased and characters are extracted up to and including the
    newline, which is not stored; extracting nothing at all sets
    [failbit]. *)
Definition getline (s : istream) (str : string) : istream * string :=
  if good s then
    match read_until "010"%char (buffer s) with
    | (l, Some rest) => (set_buffer rest s, l)
    | (l, None) =>
        let s' := underflow s in
        (if is_empty l then set_failbit s' else s', l)
    end
  else (set_failbit s, str).

(** [is >> std::ws]. *)
Definition ws (L : locale) (s : istream) : istream :=
  if good s then
    let r := drop_while (isspace L) (buffer s) in
    if is_empty r then underflow s else set_buffer r s
  else set_failbit s.

(** [is.peek()]; [None] is [traits::eof()]. *)
Definition peek (s : istream) : istream * option ascii :=
  if good s then
    match buffer s with
    | "" => (underflow s, None)
    | String c _ => (s, Some c)
    end
  else (set_failbit s, None).

(** [is >> str].  The sentry skips leading whitespace and fails, with
    [failbit], when no character is left after it; [str] is then left as
    it was.  Otherwise [str] is erased and receives the characters up to
    the next whitespace or the end of the input. *)
Definition extract (L : locale) (s : istream) (str : string)
  : istream * string :=
  if good s then
    let r := drop_while (isspace L) (buffer s) in
    if is_empty r then (set_failbit (underflow s), str)
    else
      let w := take_while (fun c => negb (isspace L c)) r in
      let rest := drop_while (fun c => negb (isspace L c)) r in
      ((if is_empty rest then underflow s else set_buffer rest s), w)
  else (set_failbit s, str).

(** ** The table *)

Abbreviation table := (gmap string (list string)).

(** [table[key]]: creates the entry, with an empty vector, when the key is
    new; the reference it returns is the entry of [key]. *)
Definition subscript (key : string) (t : table) : table :=
  match t !! key with
  | Some _ => t
  | None => <[key := []]> t
  end.

(** [vec.push_back(x)] through the reference [vec] to the entry of [key]. *)
Definition push_back (key : string) (x : string) (t : table) : table :=
  alter (fun v => v ++ [x]) key t.

(** [table.count(key)]. *)
Definition table_count (key : string) (t : table) : nat :=
  match t !! key with Some _ => 1 | None => 0 end.

(** [table.find(key)]; [None] is [table.end()]. *)
Definition table_find (key : string) (t : table) : option (list string) :=
  t !! key.

(** ** The parser *)

Definition empty_vec : list string := [].

Definition clear (t : table) : table := ∅.

(** The three strings [parse] declares before its loop; they live across
    the iterations. *)
Record locals := Locals {
  line : string;
  command : string;
  parametar_line : string
}.

(** The body of the loop after the read: both [continue] and the end of
    the body lead to the test of the loop. *)
Definition process_line (L : locale) (v : locals) (t : table)
  : locals * table :=
  let ss := stringstream (line v) in
  let ss := ws L ss in
  if eof ss then (v, t)
  else
    let '(ss, c) := peek ss in
    if bool_decide (c = Some "#"%char) then (v, t)
    else
      let '(ss, cmd) := extract L ss (command v) in
      let cmd := map_string (toupper L) cmd in
      let t := subscript cmd t in
      let ss := ws L ss in
      if eof ss then (Locals (line v) cmd (parametar_line v), t)
      else
        let '(ss, p) := getline ss (parametar_line v) in
        (Locals (line v) cmd p, push_back cmd p t).

Inductive step :=
| Return (result : bool) (t : table)
| Continue (s : istream) (v : locals) (t : table).

(** One turn of the [do ... while (!in.eof())] loop. *)
Definition iteration (L : locale) (s : istream) (v : locals) (t : table)
  : step :=
  let '(s, l) := getline s (line v) in
  let v := Locals l (command v) (parametar_line v) in
  if fail s && negb (eof s) then Return false (clear t)
  else
    let '(v, t) := process_line L v t in
    if negb (eof s) then Continue s v t else Return true t.

Fixpoint parse_loop (fuel : nat) (L : locale) (s : istream) (v : locals)
    (t : table) : option (bool * table) :=
  match fuel with
  | 0 => None
  | S fuel' =>
      match iteration L s v t with
      | Return r t' => Some (r, t')
      | Continue s' v' t' => parse_loop fuel' L s' v' t'
      end
  end.

(** [aff_parser::parse]: every turn of the loop but the last extracts a
    newline, so one turn more than the stream has characters is enough. *)
Definition parse (L : locale) (s : istream) (t : table)
  : option (bool * table) :=
  parse_loop (S (String.length (buffer s))) L s (Locals "" "" "") t.

(** The query members are not [const]: they return the table next to
    their result. *)
Definition is_command_present (cmd : string) (t : table) : bool * table :=
  (negb (table_count cmd t =? 0), t).

Definition get_command_parametars (cmd : string) (t : table)
  : list string * table :=
  match table_find cmd t with
  | Some v => (v, t)
  | None => (empty_vec, t)
  end.

Definition data (t : table) : table * table := (t, t).

Definition nl : string := String "010"%char "".

(** The example of the source's [main]. *)
Definition main_input : string :=
  "SET UTF-8" +:+ nl +:+
  nl +:+
  "TRY abcdef " +:+ nl +:+
  nl +:+
  "SFX A Y 2" +:+ nl +:+
  "#comment1" +:+ nl +:+
  "SFX A abc qwe ." +:+ nl +:+
  "  #comment2" +:+ nl +:+
  "  sfx A zxc abc ." +:+ nl +:+
  "  COMPLEXPREFIXES  " +:+ nl +:+
  "lang hu_HU #this is not comment. It's part of the parameter".

(** ** The grammar of the input

    The input as the documentation of the format describes it, to be
    compared with what [parse] does: a line is blank, a comment, or a
    directive, that is a token, whitespace, and free text up to the end of
    the line. *)

Inductive src_line :=
| Blank (sp : string)
| Comment (sp body : string)
| Directive (sp tok sep param : string).

Definition text (sl : src_line) : string :=
  match sl with
  | Blank sp => sp
  | Comment sp body => sp +:+ String "#"%char body
  | Directive sp tok sep param => sp +:+ tok +:+ sep +:+ param
  end.

Definition is_newline (c : ascii) : bool := Ascii.eqb c "010"%char.
Definition no_newline (s : string) : bool :=
  forall_string (fun c => negb (is_newline c)) s.

Definition nonspace (L : locale) (c : ascii) : bool := negb (isspace L c).

Definition starts_with (p : ascii → bool) (s : string) : bool :=
  match s with
  | "" => false
  | String c _ => p c
  end.

(** The parts of a line are what their names say: [sp] and [sep] are
    whitespace, the token is a non-empty run of other characters that does
    not open a comment, and free text starts, after at least one
    whitespace character, with a character that is not whitespace. *)
Definition wf (L : locale) (sl : src_line) : bool :=
  no_newline (text sl) &&
  match sl with
  | Blank sp => forall_string (isspace L) sp
  | Comment sp _ => forall_string (isspace L) sp && nonspace L "#"%char
  | Directive sp tok sep param =>
      forall_string (isspace L) sp &&
      forall_string (nonspace L) tok &&
      negb (is_empty tok) &&
      negb (starts_with (Ascii.eqb "#"%char) tok) &&
      forall_string (isspace L) sep &&
      (is_empty param ||
       negb (is_empty sep) && starts_with (nonspace L) param)
  end.

Definition upper (L : locale) (s : string) : string :=
  map_string (toupper L) s.

(** What a line of the grammar is documented to do to the table. *)
Definition effect (L : locale) (sl : src_line) (t : table) : table :=
  match sl with
  | Directive _ tok _ param =>
      if is_empty param then subscript (upper L tok) t
      else push_back (upper L tok) param (subscript (upper L tok) t)
  | _ => t
  end.

(** The lines a stream delivers to successive [getline] calls. *)
Fixpoint split_lines (s : string) : list string :=
  match s with
  | "" => [""]
  | String c s' =>
      if is_newline c then "" :: split_lines s'
      else match split_lines s' with
           | l :: ls => String c l :: ls
           | [] => [String c ""]
           end
  end.

Fixpoint unlines (ls : list string) : string :=
  match ls with
  | [] => ""
  | [l] => l
  | l :: ls' => l +:+ String "010"%char (unlines ls')
  end.

(** What [process_line] does to the table, read off the line. *)
Definition line_effect (L : locale) (l : string) (t : table) : table :=
  let r := drop_while (isspace L) l in
  match r with
  | "" => t
  | String c _ =>
      if Ascii.eqb c "#"%char then t
      else
        let key := upper L (take_while (nonspace L) r) in
        let r2 := drop_while (isspace L) (drop_while (nonspace L) r) in
        if is_empty r2 then subscript key t
        else push_back key (fst (read_until "010"%char r2)) (subscript key t)
  end.

(** Every line reads as a line of the grammar: the leading whitespace,
    then nothing, a comment, or a token with what follows it. *)
Definition classify (L : locale) (l : string) : src_line :=
  let r := drop_while (isspace L) l in
  match r with
  | "" => Blank l
  | String c body =>
      if Ascii.eqb c "#"%char then Comment (take_while (isspace L) l) body
      else
        let r2 := drop_while (nonspace L) r in
        Directive (take_while (isspace L) l) (take_while (nonspace L) r)
          (take_while (isspace L) r2) (drop_while (isspace L) r2)
  end.

(** The key a line writes to, and the parameter line it appends. *)
Definition key_of (L : locale) (sl : src_line) : option string :=
  match sl with
  | Directive _ tok _ _ => Some (upper L tok)
  | _ => None
  end.

Definition param (sl : src_line) : string :=
  match sl with
  | Directive _ _ _ p => p
  | _ => ""
  end.

Definition occurs (L : locale) (key : string) (sl : src_line) : bool :=
  bool_decide (key_of L sl = Some key).

(** The line is an occurrence of [key] that carries parameter text. *)
Definition carries (L : locale) (key : string) (sl : src_line) : bool :=
  occurs L key sl && negb (is_empty (param sl)).

(** The parameter texts of [key] in the input, in the order of the input. *)
Definition params_for (L : locale) (key : string) (ls : list src_line)
  : list string :=
  map param (List.filter (carries L key) ls).

(** A read has failed and the stream is not at the end of its input. *)
Definition read_error (s : istream) : bool := fail s && negb (eof s).

(** The states of the loop of [parse] before each of its turns. *)
Definition config : Type := istream * locals * table.

Inductive reaches (L : locale) : config → config → Prop :=
| reaches_here (c : config) : reaches L c c
| reaches_turn (s : istream) (v : locals) (t : table)
      (s' : istream) (v' : locals) (t' : table) (c : config) :
    iteration L s v t = Continue s' v' t' →
    reaches L (s', v', t') c →
    reaches L (s, v, t) c.

Definition well_formed (L : locale) (ls : list src_line) : bool :=
  forallb (wf L) ls.

Definition insignificant (sl : src_line) : bool :=
  match sl with
  | Directive _ _ _ _ => false
  | _ => true
  end.

(** The operations that change a parser, and a parser's life from its
    construction on. *)
Inductive op :=
| op_clear
| op_parse (L : locale) (s : istream).

Definition apply_op (o : op) (t : table) : option table :=
  match o with
  | op_clear => Some (clear t)
  | op_parse L s => snd <$> parse L s t
  end.

Fixpoint run (ops : list op) (t : table) : option table :=
  match ops with
  | [] => Some t
  | o :: ops' =>
      match apply_op o t with
      | Some t' => run ops' t'
      | None => None
      end
  end.

(** [toupper] never returns one of the letters [a]..[z]. *)
Definition upper_range (L : locale) : bool :=
  forallb (fun n => negb (is_lower (toupper L (ascii_of_nat n)))) (seq 0 256).

Definition op_upper_range (o : op) : bool :=
  match o with
  | op_clear => true
  | op_parse L _ => upper_range L
  end.

Definition no_lower (s : string) : bool :=
  forall_string (fun c => negb (is_lower c)) s.

(** The table after a run of lines. *)
Definition run_lines (L : locale) (ls : list string) (t : table) : table :=
  fold_left (fun t l => line_effect L l t) ls t.

Definition run_src (L : locale) (ls : list src_line) (t : table) : table :=
  fold_left (fun t sl => effect L sl t) ls t.

(** What [parse] returns, by the state of the stream it is given. *)
Definition outcome (L : locale) (s : istream) (t : table) : bool * table :=
  if eofbit s then (true, t)
  else if failbit s || badbit s || source_fails s then (false, ∅)
  else (true, run_lines L (split_lines (buffer s)) t).

(** Every content is made of lines of the grammar. *)
Definition src_lines (L : locale) (content : string) : list src_line :=
  map (classify L) (split_lines content).

(** Every key is a non-empty string without a lowercase letter. *)
Definition keys_ok (t : table) : Prop :=
  ∀ k, is_Some (t !! k) → k ≠ "" ∧ no_lower k = true.

(** ** The stream after [parse], and the driver

    [parse] takes its stream by reference: the caller sees the state the
    last read left it in.  The loop below is the loop of [parse_loop],
    returning that stream next to the result. *)
Fixpoint parse_loop_in (fuel : nat) (L : locale) (s : istream) (v : locals)
    (t : table) : option (bool * table * istream) :=
  match fuel with
  | 0 => None
  | S fuel' =>
      match iteration L s v t with
      | Return r t' => Some (r, t', (getline s (line v)).1)
      | Continue s' v' t' => parse_loop_in fuel' L s' v' t'
      end
  end.

Definition parse_in (L : locale) (s : istream) (t : table)
  : option (bool * table * istream) :=
  parse_loop_in (S (String.length (buffer s))) L s (Locals "" "" "") t.

Fixpoint concat_strings (ls : list string) : string :=
  match ls with
  | [] => ""
  | l :: ls' => l +:+ concat_strings ls'
  end.

(** What the loop of [main] writes for one entry of [p.data()], before
    [endl]: the key, a colon, and every parameter line followed by a comma
    and a space. *)
Definition entry_line (kv : string * list string) : string :=
  kv.1 +:+ ":" +:+ concat_strings (map (fun p => p +:+ ", ") kv.2).

(** The output of the loop of [main] over the entries of the table, in
    the order the traversal of the [unordered_map] yields them. *)
Definition print_data (entries : list (string * list string)) : string :=
  concat_strings (map (fun kv => entry_line kv +:+ nl) entries).

(** [main], with the text it parses and the order in which the table is
    traversed as parameters (the text of the source is [main_input]); the
    result of [parse] is not looked at. *)
Definition main (L : locale) (test : string)
    (traversal : table → list (string * list string)) : option string :=
  match parse L (stringstream test) ∅ with
  | Some (_, t) => Some (print_data (traversal t))
  | None => None
  end.

(** Every stored parameter line is non-empty and holds no newline, and no
    key is empty. *)
Definition entries_ok (t : table) : Prop :=
  ∀ k v, t !! k = Some v →
    k ≠ "" ∧ ∀ p, In p v → p ≠ "" ∧ no_newline p = true.

(** The content is empty or ends with a newline: the last read of
    [parse] extracts nothing. *)
Fixpoint ends_line (b : string) : bool :=
  match b with
  | "" => true
  | String c r => if is_empty r then is_newline c else ends_line r
  end.

Definition significant (sl : src_line) : bool := negb (insignificant sl).

(** * Lemmas *)

(** ** Strings: elementary facts *)

#[local] Arguments String.append !_ _ / : simpl nomatch.

Lemma append_nil_r (s : string) : s +:+ "" = s.
Proof. induction s as [|c s IH]; [done|]. cbn. by rewrite IH. Qed.

Lemma append_cons (c : ascii) (s r : string) :
  String c s +:+ r = String c (s +:+ r).
Proof. reflexivity. Qed.

Lemma append_assoc (a b c : string) : (a +:+ b) +:+ c = a +:+ b +:+ c.
Proof. induction a as [|x a IH]; [done|]. cbn. by rewrite IH. Qed.

Lemma is_empty_true (s : string) : is_empty s = true → s = "".
Proof. by destruct s. Qed.

Lemma forall_string_app (p : ascii → bool) (a b : string) :
  forall_string p (a +:+ b) = forall_string p a && forall_string p b.
Proof.
  induction a as [|c a IH]; [done|]. cbn. rewrite IH. by rewrite andb_assoc.
Qed.

Lemma take_drop_while (p : ascii → bool) (s : string) : take_while p s +:+ drop_while p s = s.
Proof.
  induction s as [|c s IH]; [done|]. cbn. destruct (p c); [|done].
  cbn. by rewrite IH.
Qed.

Lemma forall_take_while (p : ascii → bool) (s : string) :
  forall_string p (take_while p s) = true.
Proof.
  induction s as [|c s IH]; [done|]. cbn. destruct (p c) eqn:E; [|done].
  cbn. by rewrite E.
Qed.

Lemma starts_drop_while (p : ascii → bool) (s : string) :
  is_empty (drop_while p s) = false → starts_with (fun c => negb (p c)) (drop_while p s) = true.
Proof.
  induction s as [|c s IH]; [done|]. cbn. destruct (p c) eqn:E; [done|].
  intros _. cbn. by rewrite E.
Qed.

Lemma drop_while_all (p : ascii → bool) (a b : string) :
  forall_string p a = true → drop_while p (a +:+ b) = drop_while p b.
Proof.
  induction a as [|c a IH]; [done|]. cbn. intros [Hc Ha]%andb_true_iff.
  rewrite Hc. auto.
Qed.

Lemma take_while_all (p : ascii → bool) (a b : string) :
  forall_string p a = true → take_while p (a +:+ b) = a +:+ take_while p b.
Proof.
  induction a as [|c a IH]; [done|]. cbn. intros [Hc Ha]%andb_true_iff.
  rewrite Hc. cbn. by rewrite IH.
Qed.

Lemma drop_while_stop (p : ascii → bool) (s : string) :
  starts_with p s = false → drop_while p s = s.
Proof. destruct s as [|c s]; [done|]. cbn. by intros ->. Qed.

Lemma take_while_stop (p : ascii → bool) (s : string) :
  starts_with p s = false → take_while p s = "".
Proof. destruct s as [|c s]; [done|]. cbn. by intros ->. Qed.

Lemma read_until_no_newline (s : string) :
  no_newline s = true → read_until "010"%char s = (s, None).
Proof.
  induction s as [|c s IH]; [done|]. cbn.
  intros [Hc Hs]%andb_true_iff. unfold is_newline in Hc.
  destruct (Ascii.eqb c "010"%char); [done|]. by rewrite IH.
Qed.

Lemma no_newline_app (a b : string) :
  no_newline (a +:+ b) = no_newline a && no_newline b.
Proof. apply forall_string_app. Qed.

Section WithLocale.

Variable L : locale.

(** ** One line *)

Lemma drop_space_head (l : string) (c : ascii) (r : string) :
  drop_while (isspace L) l = String c r → isspace L c = false.
Proof.
  intros E. pose proof (starts_drop_while (isspace L) l) as H.
  rewrite E in H. cbn in H. apply negb_true_iff. by apply H.
Qed.

Lemma drop_space_cons (c : ascii) (r : string) :
  isspace L c = false → drop_while (isspace L) (String c r) = String c r.
Proof. intros H. cbn. by rewrite H. Qed.

Lemma take_nonspace_cons (c : ascii) (r : string) :
  isspace L c = false →
  take_while (nonspace L) (String c r) = String c (take_while (nonspace L) r).
Proof. intros H. cbn. unfold nonspace at 1. by rewrite H. Qed.

Lemma drop_nonspace_cons (c : ascii) (r : string) :
  isspace L c = false →
  drop_while (nonspace L) (String c r) = drop_while (nonspace L) r.
Proof. intros H. cbn. unfold nonspace at 1. by rewrite H. Qed.

(** [process_line] never reads the [command] and [parametar_line] left by
    an earlier turn of the loop: whenever it uses them it has just
    overwritten them. *)
Lemma process_line_effect (v : locals) (t : table) :
  snd (process_line L v t) = line_effect L (line v) t.
Proof.
  unfold process_line, line_effect, ws, extract, getline, peek, stringstream.
  cbn [good eofbit failbit badbit buffer orb negb].
  destruct (drop_while (isspace L) (line v)) as [|c r] eqn:E; [done|].
  pose proof (drop_space_head _ _ _ E) as Hc.
  cbn [is_empty set_buffer eof good eofbit failbit badbit buffer orb negb
       source_fails fst snd].
  destruct (Ascii.eqb_spec c "#"%char) as [->|Hne].
  { by rewrite bool_decide_eq_true_2. }
  rewrite bool_decide_eq_false_2 by congruence.
  rewrite drop_space_cons by done.
  cbn [is_empty]. fold (nonspace L).
  rewrite take_nonspace_cons, drop_nonspace_cons by done.
  fold (upper L (String c (take_while (nonspace L) r))).
  destruct (drop_while (nonspace L) r) as [|c2 r2] eqn:E2.
  { reflexivity. }
  cbn [is_empty set_buffer eof good eofbit failbit badbit buffer orb negb
       source_fails fst snd].
  destruct (drop_while (isspace L) (String c2 r2)) as [|c3 r3] eqn:E3.
  { reflexivity. }
  cbn [is_empty set_buffer eof good eofbit failbit badbit buffer orb negb
       source_fails fst snd].
  by destruct (read_until "010"%char (String c3 r3)) as [p [rest|]].
Qed.

Lemma drop_while_forall (p : ascii → bool) (s : string) :
  forall_string p s = true → drop_while p s = "".
Proof.
  intros H. rewrite <- (append_nil_r s). by rewrite drop_while_all.
Qed.

Lemma starts_with_app (p : ascii → bool) (a b : string) :
  starts_with p (a +:+ b) =
  if is_empty a then starts_with p b else starts_with p a.
Proof. by destruct a. Qed.

Lemma starts_with_forall (p : ascii → bool) (s : string) :
  forall_string p s = true → is_empty s = false → starts_with p s = true.
Proof. destruct s as [|c s]; [done|]. cbn. by intros [? _]%andb_true_iff. Qed.

Lemma starts_with_neg (p : ascii → bool) (s : string) :
  starts_with (fun c => negb (p c)) s = true → starts_with p s = false.
Proof. destruct s as [|c s]; [done|]. cbn. by intros ->%negb_true_iff. Qed.

Lemma starts_with_neg' (s : string) :
  starts_with (isspace L) s = true → starts_with (nonspace L) s = false.
Proof.
  destruct s as [|c s]; [done|]. cbn. unfold nonspace. by intros ->.
Qed.

(** The parts of a well-formed directive line, found again in its text
    by skipping whitespace, taking the token and skipping whitespace. *)
Lemma wf_directive (sp tok sep p : string) :
  wf L (Directive sp tok sep p) = true →
  let l := text (Directive sp tok sep p) in
  drop_while (isspace L) l = tok +:+ sep +:+ p ∧
  take_while (nonspace L) (drop_while (isspace L) l) = tok ∧
  drop_while (isspace L)
    (drop_while (nonspace L) (drop_while (isspace L) l)) = p ∧
  tok ≠ "" ∧
  starts_with (Ascii.eqb "#"%char) tok = false ∧
  no_newline p = true.
Proof.
  unfold wf. intros [Hnl H]%andb_true_iff.
  repeat (apply andb_true_iff in H as [H ?]).
  rename H into Hsp, H0 into Hparam, H1 into Hsep, H2 into Hhash,
    H3 into Hne, H4 into Htok.
  cbn [text] in *. cbv zeta. rewrite drop_while_all by done.
  destruct tok as [|c tok]; [done|].
  pose proof Htok as Htok'. cbn in Htok'.
  apply andb_true_iff in Htok' as [Hc _]. unfold nonspace in Hc.
  apply negb_true_iff in Hc.
  assert (Hstop : starts_with (nonspace L) (sep +:+ p) = false).
  { rewrite starts_with_app. destruct (is_empty sep) eqn:Es.
    - apply is_empty_true in Es as ->. apply orb_true_iff in Hparam as [Hp|Hp].
      + by apply is_empty_true in Hp as ->.
      + done.
    - apply starts_with_neg'. by apply starts_with_forall. }
  rewrite append_cons. rewrite drop_space_cons by done.
  rewrite <- append_cons.
  rewrite take_while_all, drop_while_all by done.
  rewrite (take_while_stop (nonspace L)), (drop_while_stop (nonspace L))
    by done.
  rewrite append_nil_r. split; [done|]. split; [done|]. split.
  { rewrite drop_while_all by done. apply drop_while_stop.
    apply orb_true_iff in Hparam as [Hp|Hp].
    - by apply is_empty_true in Hp as ->.
    - apply andb_true_iff in Hp as [_ Hp]. by apply starts_with_neg. }
  split; [done|]. split; [by apply negb_true_iff|].
  rewrite !no_newline_app in Hnl.
  by repeat (apply andb_true_iff in Hnl as [_ Hnl]).
Qed.

(** On a well-formed line the loop body does what the grammar says. *)
Lemma line_effect_text (sl : src_line) (t : table) :
  wf L sl = true → line_effect L (text sl) t = effect L sl t.
Proof.
  intros Hwf. destruct sl as [sp|sp body|sp tok sep p].
  - unfold wf in Hwf. apply andb_true_iff in Hwf as [_ Hsp].
    unfold line_effect. cbn [text]. by rewrite drop_while_forall.
  - unfold wf in Hwf. apply andb_true_iff in Hwf as [_ Hwf].
    apply andb_true_iff in Hwf as [Hsp Hhash]. unfold line_effect.
    cbn [text]. rewrite drop_while_all by done. unfold nonspace in Hhash.
    apply negb_true_iff in Hhash. by rewrite drop_space_cons.
  - destruct (wf_directive _ _ _ _ Hwf) as (E1 & E2 & E3 & Hne & Hhash & Hnl).
    cbv zeta in *. unfold line_effect, effect. rewrite E2, E3, E1.
    destruct tok as [|c tok]; [done|]. rewrite append_cons.
    cbn [starts_with] in Hhash. rewrite (Ascii.eqb_sym c), Hhash.
    destruct (is_empty p); [done|]. by rewrite read_until_no_newline.
Qed.

Lemma drop_while_empty (p : ascii → bool) (s : string) :
  drop_while p s = "" → forall_string p s = true.
Proof.
  induction s as [|c s IH]; [done|]. cbn. destruct (p c); [|done]. auto.
Qed.

Lemma classify_text (l : string) : text (classify L l) = l.
Proof.
  unfold classify. destruct (drop_while (isspace L) l) as [|c body] eqn:E; [done|].
  destruct (Ascii.eqb_spec c "#"%char) as [->|Hne]; cbn [text].
  - rewrite <- E. apply take_drop_while.
  - rewrite !take_drop_while. rewrite <- E. apply take_drop_while.
Qed.

Lemma classify_wf (l : string) :
  no_newline l = true → wf L (classify L l) = true.
Proof.
  intros Hnl. unfold wf. rewrite classify_text, Hnl. cbn [andb].
  unfold classify. destruct (drop_while (isspace L) l) as [|c body] eqn:E.
  { by apply drop_while_empty. }
  pose proof (drop_space_head _ _ _ E) as Hc.
  destruct (Ascii.eqb_spec c "#"%char) as [->|Hne].
  { rewrite forall_take_while. unfold nonspace. by rewrite Hc. }
  rewrite !forall_take_while. rewrite take_nonspace_cons by done.
  cbn [is_empty starts_with negb andb].
  destruct (Ascii.eqb_spec "#"%char c) as [Heq|_]; [congruence|].
  cbn [negb andb].
  set (r2 := drop_while (nonspace L) (String c body)).
  destruct (is_empty (drop_while (isspace L) r2)) eqn:Ep; [done|]. cbn [orb].
  pose proof (starts_drop_while _ _ Ep) as Hp. fold (nonspace L) in Hp. rewrite Hp.
  rewrite andb_true_r. apply negb_true_iff.
  destruct r2 as [|c2 r2'] eqn:E2; [done|]. subst r2.
  assert (is_empty (drop_while (nonspace L) (String c body)) = false) as Hne2
    by by rewrite E2.
  apply starts_drop_while in Hne2. rewrite E2 in Hne2. cbn in Hne2.
  unfold nonspace in Hne2. rewrite negb_involutive in Hne2.
  cbn. by rewrite Hne2.
Qed.

(** ** Lines of a stream *)

Lemma split_lines_cons (s : string) : ∃ l ls, split_lines s = l :: ls.
Proof.
  induction s as [|c s (l & ls & IH)]; [by eexists _, _|]. cbn.
  destruct (is_newline c); [by eexists _, _|]. rewrite IH. by eexists _, _.
Qed.

Lemma read_until_split (s : string) :
  match read_until "010"%char s with
  | (l, Some rest) =>
      split_lines s = l :: split_lines rest ∧
      String.length rest < String.length s
  | (l, None) => split_lines s = [l]
  end.
Proof.
  induction s as [|c s IH]; [done|]. cbn. unfold is_newline.
  destruct (Ascii.eqb c "010"%char); [split; [done|lia]|].
  destruct (read_until "010"%char s) as [l [rest|]].
  - destruct IH as [-> ?]. split; [done|lia].
  - by rewrite IH.
Qed.

Lemma split_lines_no_newline (s : string) :
  Forall (fun l => no_newline l = true) (split_lines s).
Proof.
  induction s as [|c s IH]; [by repeat constructor|]. cbn.
  destruct (is_newline c) eqn:E; [by constructor|].
  destruct (split_lines s) as [|l ls]; [by repeat constructor; cbn; rewrite E|].
  inversion IH; subst. constructor; [|done]. cbn. by rewrite E.
Qed.

Lemma unlines_cons (l : string) (ls : list string) :
  ls ≠ [] → unlines (l :: ls) = l +:+ String "010"%char (unlines ls).
Proof. by destruct ls. Qed.

Lemma unlines_split_lines (s : string) : unlines (split_lines s) = s.
Proof.
  induction s as [|c s IH]; [done|]. cbn [split_lines].
  destruct (split_lines_cons s) as (l & ls & E). rewrite E in *.
  destruct (is_newline c) eqn:Ec.
  - rewrite unlines_cons by done. rewrite IH. cbn.
    unfold is_newline in Ec. by apply Ascii.eqb_eq in Ec as ->.
  - destruct ls as [|l' ls]; cbn in *; by rewrite IH.
Qed.

Lemma split_lines_app (l s : string) :
  no_newline l = true →
  split_lines (l +:+ String "010"%char s) = l :: split_lines s.
Proof.
  induction l as [|c l IH]; [done|]. cbn. intros [Hc Hl]%andb_true_iff.
  apply negb_true_iff in Hc. rewrite Hc. by rewrite IH.
Qed.

Lemma split_lines_single (l : string) :
  no_newline l = true → split_lines l = [l].
Proof.
  induction l as [|c l IH]; [done|]. cbn. intros [Hc Hl]%andb_true_iff.
  apply negb_true_iff in Hc. rewrite Hc. by rewrite IH.
Qed.

Lemma split_lines_unlines (ls : list string) :
  Forall (fun l => no_newline l = true) ls → ls ≠ [] →
  split_lines (unlines ls) = ls.
Proof.
  induction 1 as [|l ls Hl Hls IH]; [done|]. intros _.
  destruct ls as [|l' ls]; [by apply split_lines_single|].
  rewrite unlines_cons by done. rewrite split_lines_app by done.
  by rewrite IH.
Qed.

(** ** The loop *)

Lemma iteration_good (s : istream) (v : locals) (t : table) :
  good s = true → source_fails s = false →
  match read_until "010"%char (buffer s) with
  | (l, Some rest) =>
      ∃ v', iteration L s v t =
            Continue (set_buffer rest s) v' (line_effect L l t) ∧
            good (set_buffer rest s) = true
  | (l, None) => iteration L s v t = Return true (line_effect L l t)
  end.
Proof.
  intros Hg Hs. destruct s as [b sf e f bd].
  unfold good in Hg. cbn in Hg, Hs. subst sf.
  apply negb_true_iff in Hg.
  apply orb_false_iff in Hg as [[-> ->]%orb_false_iff ->].
  unfold iteration, getline, good.
  cbn [buffer eofbit failbit badbit orb negb].
  destruct (read_until "010"%char b) as [l [rest|]].
  - cbn.
    pose proof (process_line_effect
                  (Locals l (command v) (parametar_line v)) t) as H.
    destruct (process_line L _ t) as [v' t']. cbn in H. subst t'.
    by exists v'.
  - pose proof (process_line_effect
                  (Locals l (command v) (parametar_line v)) t) as H.
    destruct (is_empty l); cbn;
      destruct (process_line L _ t) as [v' t']; cbn in H; by subst t'.
Qed.

Lemma parse_loop_good (fuel : nat) :
  ∀ (s : istream) (v : locals) (t : table),
    good s = true → source_fails s = false →
    String.length (buffer s) < fuel →
    parse_loop fuel L s v t =
    Some (true, run_lines L (split_lines (buffer s)) t).
Proof.
  induction fuel as [|fuel IH]; intros s v t Hg Hs Hlen; [lia|].
  cbn [parse_loop]. pose proof (iteration_good s v t Hg Hs) as Hit.
  pose proof (read_until_split (buffer s)) as Hsp.
  destruct (read_until "010"%char (buffer s)) as [l [rest|]].
  - destruct Hit as (v' & -> & Hg'). destruct Hsp as [-> Hlt].
    rewrite IH; [done|done|done|cbn; lia].
  - rewrite Hit, Hsp. done.
Qed.

Lemma iteration_at_eof (s : istream) (v : locals) (t : table) :
  eofbit s = true →
  iteration L s v t = Return true (line_effect L (line v) t).
Proof.
  intros He. destruct s as [b sf e f bd]. cbn in He. subst e.
  unfold iteration, getline, good. cbn.
  pose proof (process_line_effect
                (Locals (line v) (command v) (parametar_line v)) t) as H.
  destruct (process_line L _ t) as [v' t']. cbn in H. by subst t'.
Qed.

Lemma iteration_failed (s : istream) (v : locals) (t : table) :
  eofbit s = false → failbit s || badbit s = true →
  iteration L s v t = Return false ∅.
Proof.
  intros He Hf. destruct s as [b sf e f bd]. cbn in He, Hf. subst e.
  unfold iteration, getline, good. cbn. rewrite Hf. reflexivity.
Qed.

Lemma iteration_source_fails (s : istream) (v : locals)
    (t : table) :
  good s = true → source_fails s = true →
  match read_until "010"%char (buffer s) with
  | (l, Some rest) =>
      ∃ v' t', iteration L s v t = Continue (set_buffer rest s) v' t' ∧
               good (set_buffer rest s) = true
  | (l, None) => iteration L s v t = Return false ∅
  end.
Proof.
  intros Hg Hs. destruct s as [b sf e f bd].
  unfold good in Hg. cbn in Hg, Hs. subst sf.
  apply negb_true_iff in Hg.
  apply orb_false_iff in Hg as [[-> ->]%orb_false_iff ->].
  unfold iteration, getline, good.
  cbn [buffer eofbit failbit badbit orb negb].
  destruct (read_until "010"%char b) as [l [rest|]].
  - cbn. destruct (process_line L _ t) as [v' t']. by exists v', t'.
  - by destruct (is_empty l).
Qed.

Lemma parse_loop_source_fails (fuel : nat) :
  ∀ (s : istream) (v : locals) (t : table),
    good s = true → source_fails s = true →
    String.length (buffer s) < fuel →
    parse_loop fuel L s v t = Some (false, ∅).
Proof.
  induction fuel as [|fuel IH]; intros s v t Hg Hs Hlen; [lia|].
  cbn [parse_loop]. pose proof (iteration_source_fails s v t Hg Hs) as Hit.
  pose proof (read_until_split (buffer s)) as Hsp.
  destruct (read_until "010"%char (buffer s)) as [l [rest|]].
  - destruct Hit as (v' & t' & -> & Hg'). destruct Hsp as [_ Hlt].
    apply IH; [done|done|cbn; lia].
  - by rewrite Hit.
Qed.

Lemma line_effect_empty (t : table) : line_effect L "" t = t.
Proof. reflexivity. Qed.

(** [parse] always returns. *)
Lemma parse_outcome (s : istream) (t : table) :
  parse L s t = Some (outcome L s t).
Proof.
  unfold parse, outcome. destruct (eofbit s) eqn:He.
  { cbn [parse_loop]. by rewrite iteration_at_eof. }
  destruct (failbit s || badbit s) eqn:Hf.
  { cbn [parse_loop orb]. by rewrite iteration_failed. }
  assert (good s = true) as Hg.
  { unfold good. rewrite He. cbn. by rewrite Hf. }
  cbn [orb]. destruct (source_fails s) eqn:Hs.
  - apply parse_loop_source_fails; [done|done|lia].
  - apply parse_loop_good; [done|done|lia].
Qed.

Lemma run_lines_text (ls : list src_line) (t : table) :
  Forall (fun sl => wf L sl = true) ls →
  run_lines L (map text ls) t = run_src L ls t.
Proof.
  intros H. revert t. induction H as [|sl ls Hsl _ IH]; intros t; [done|].
  cbn. rewrite line_effect_text by done. apply IH.
Qed.

Lemma wf_no_newline (sl : src_line) :
  wf L sl = true → no_newline (text sl) = true.
Proof. unfold wf. by intros [? _]%andb_true_iff. Qed.

(** The table after a readable stream, by the lines of its content. *)
Lemma parse_lines (s : istream) (t : table)
    (ls : list src_line) :
  good s = true → source_fails s = false →
  Forall (fun sl => wf L sl = true) ls →
  buffer s = unlines (map text ls) →
  parse L s t = Some (true, run_src L ls t).
Proof.
  intros Hg Hs Hwf Hb. rewrite parse_outcome. unfold outcome.
  unfold good in Hg. apply negb_true_iff in Hg.
  apply orb_false_iff in Hg as [[-> ->]%orb_false_iff ->]. rewrite Hs.
  cbn [orb]. rewrite Hb. destruct ls as [|sl ls]; [done|].
  rewrite split_lines_unlines; [|by apply Forall_fmap; eapply Forall_impl;
    [done|apply wf_no_newline]|done].
  by rewrite run_lines_text.
Qed.

Lemma src_lines_wf (content : string) :
  Forall (fun sl => wf L sl = true) (src_lines L content).
Proof.
  unfold src_lines. apply Forall_fmap.
  eapply Forall_impl; [apply split_lines_no_newline|].
  intros l Hl. by apply classify_wf.
Qed.

Lemma src_lines_text (content : string) :
  unlines (map text (src_lines L content)) = content.
Proof.
  unfold src_lines. rewrite map_map.
  rewrite (map_ext _ id) by (intros l; apply classify_text).
  rewrite map_id. apply unlines_split_lines.
Qed.

(** ** The table after a run of lines *)

Lemma lookup_subscript (key k : string) (t : table) :
  subscript key t !! k =
  if decide (key = k) then Some (default [] (t !! k)) else t !! k.
Proof.
  unfold subscript. destruct (t !! key) as [v|] eqn:E.
  - case_decide; [subst; by rewrite E|done].
  - rewrite lookup_insert. case_decide; [subst; by rewrite E|done].
Qed.

Lemma lookup_push_back (key x k : string) (t : table) :
  push_back key x t !! k =
  if decide (key = k) then (fun v => v ++ [x]) <$> t !! k else t !! k.
Proof.
  unfold push_back. rewrite lookup_alter. case_decide; [by subst|done].
Qed.

Lemma lookup_effect (sl : src_line) (t : table) (k : string) :
  effect L sl t !! k =
  if occurs L k sl
  then Some (default [] (t !! k) ++ params_for L k [sl])
  else t !! k.
Proof.
  unfold params_for, carries, occurs.
  destruct sl as [sp|sp body|sp tok sep p]; cbn; try done.
  destruct (is_empty p).
  - rewrite lookup_subscript. case_decide as H.
    + subst. rewrite bool_decide_eq_true_2 by done. cbn. by rewrite app_nil_r.
    + rewrite bool_decide_eq_false_2 by congruence. done.
  - rewrite lookup_push_back, lookup_subscript. case_decide as H.
    + subst. rewrite bool_decide_eq_true_2 by done. done.
    + rewrite bool_decide_eq_false_2 by congruence. done.
Qed.

Lemma params_for_cons (k : string) (sl : src_line)
    (ls : list src_line) :
  params_for L k (sl :: ls) = params_for L k [sl] ++ params_for L k ls.
Proof. unfold params_for. cbn. by destruct (carries L k sl). Qed.

Lemma params_for_absent (k : string) (ls : list src_line) :
  existsb (occurs L k) ls = false → params_for L k ls = [].
Proof.
  induction ls as [|sl ls IH]; [done|]. cbn [existsb].
  intros [E Hls]%orb_false_iff. rewrite params_for_cons, IH by done.
  unfold params_for, carries. cbn. by rewrite E.
Qed.

Lemma lookup_run_src (ls : list src_line) (k : string) :
  ∀ t : table,
    run_src L ls t !! k =
    if existsb (occurs L k) ls
    then Some (default [] (t !! k) ++ params_for L k ls)
    else t !! k.
Proof.
  induction ls as [|sl ls IH]; intros t; [done|].
  unfold run_src in *. cbn [fold_left existsb]. rewrite IH.
  rewrite lookup_effect, (params_for_cons k sl ls).
  destruct (occurs L k sl) eqn:E; cbn [orb].
  2:{ replace (params_for L k [sl]) with (@nil string); [done|].
      unfold params_for, carries. cbn. by rewrite E. }
  destruct (existsb (occurs L k) ls) eqn:Ex.
  - simpl. by rewrite <- app_assoc.
  - rewrite (params_for_absent _ ls) by done. by rewrite app_nil_r.
Qed.

Lemma existsb_occurs (ls : list src_line) (sl : src_line)
    (k : string) :
  In sl ls → key_of L sl = Some k → existsb (occurs L k) ls = true.
Proof.
  intros Hin Hk. apply existsb_exists. exists sl. split; [done|].
  unfold occurs. by apply bool_decide_eq_true_2.
Qed.

(** ** Turns of the loop *)

Lemma iteration_consumes (s s' : istream) (v v' : locals)
    (t t' : table) :
  iteration L s v t = Continue s' v' t' →
  String.length (buffer s') < String.length (buffer s).
Proof.
  intros H. destruct (eofbit s) eqn:He.
  { by rewrite iteration_at_eof in H. }
  destruct (failbit s || badbit s) eqn:Hf.
  { by rewrite iteration_failed in H. }
  assert (good s = true) as Hg.
  { unfold good. rewrite He. cbn. by rewrite Hf. }
  pose proof (read_until_split (buffer s)) as Hsp.
  destruct (source_fails s) eqn:Hs.
  - pose proof (iteration_source_fails s v t Hg Hs) as Hit.
    destruct (read_until "010"%char (buffer s)) as [l [rest|]].
    + destruct Hit as (? & ? & Hit & _). rewrite Hit in H.
      injection H as <- _ _. by destruct Hsp.
    + by rewrite Hit in H.
  - pose proof (iteration_good s v t Hg Hs) as Hit.
    destruct (read_until "010"%char (buffer s)) as [l [rest|]].
    + destruct Hit as (? & Hit & _). rewrite Hit in H.
      injection H as <- _ _. by destruct Hsp.
    + by rewrite Hit in H.
Qed.

Lemma reaches_parse_loop (c c1 : config) :
  reaches L c c1 →
  ∀ fuel, String.length (buffer c.1.1) < fuel →
    ∃ fuel1, String.length (buffer c1.1.1) < fuel1 ∧
      parse_loop fuel L c.1.1 c.1.2 c.2 =
      parse_loop fuel1 L c1.1.1 c1.1.2 c1.2.
Proof.
  induction 1 as [c|s v t s' v' t' c Hit _ IH]; intros fuel Hlen.
  { by exists fuel. }
  destruct fuel as [|fuel]; [lia|]. cbn [fst snd] in *.
  pose proof (iteration_consumes _ _ _ _ _ _ Hit) as Hlt.
  destruct (IH fuel) as (fuel1 & Hlen1 & Heq); [lia|].
  exists fuel1. split; [done|]. cbn [parse_loop]. by rewrite Hit.
Qed.

Lemma iteration_read_error (s : istream) (v : locals)
    (t : table) :
  read_error (getline s (line v)).1 = true →
  iteration L s v t = Return false ∅.
Proof.
  unfold iteration, read_error. destruct (getline s (line v)) as [s' l].
  cbn [fst]. by intros ->.
Qed.

Lemma well_formed_Forall (ls : list src_line) :
  well_formed L ls = true → Forall (fun sl => wf L sl = true) ls.
Proof.
  unfold well_formed. rewrite forallb_forall. intros H.
  by apply List.Forall_forall.
Qed.

Lemma src_lines_well_formed (content : string) :
  well_formed L (src_lines L content) = true.
Proof.
  unfold well_formed. apply forallb_forall.
  apply List.Forall_forall, src_lines_wf.
Qed.

End WithLocale.

(** * The properties of the parser *)

(** ** I/O failure *)

(** C1.  Whenever, at some turn of the loop of [parse], the read of a
    line fails for another reason than the end of the stream, [parse]
    returns [false] and the index is empty afterwards: whatever the index
    held before the call and whatever the lines read before the failure
    had added to it. *)
Theorem parse_read_error (L : locale) (s : istream) (t : table)
    (s1 : istream) (v1 : locals) (t1 : table) :
  reaches L (s, Locals "" "" "", t) (s1, v1, t1) →
  read_error (getline s1 (line v1)).1 = true →
  parse L s t = Some (false, ∅).
Proof.
  intros Hr He. unfold parse.
  destruct (reaches_parse_loop _ _ _ Hr (S (String.length (buffer s))))
    as (fuel1 & Hlen & Heq); [cbn; lia|].
  cbn [fst snd] in Heq, Hlen. rewrite Heq.
  destruct fuel1 as [|fuel1]; [lia|]. cbn [parse_loop].
  by rewrite iteration_read_error.
Qed.

Lemma parse_read_error_witness :
  parse classic
    (Istream ("SFX A Y 2" +:+ nl +:+ "SFX A ab") true false false false)
    {[ "TRY" := ["abcdef "] ]}
  = Some (false, ∅).
Proof.
  eapply (parse_read_error classic _ _
            (Istream "SFX A ab" true false false false)
            (Locals "SFX A Y 2" "SFX" "A Y 2")
            (<[ "SFX" := ["A Y 2"] ]> {[ "TRY" := ["abcdef "] ]})).
  - eapply reaches_turn; [|apply reaches_here]. vm_compute. reflexivity.
  - vm_compute. reflexivity.
Defined.

(** When a read fails short of the end of the stream: the stream was
    already in a failed state, or the source breaks before the line is
    complete. *)
Lemma getline_read_error (s : istream) (str : string) :
  read_error (getline s str).1 =
  negb (eofbit s) &&
  (failbit s || badbit s || source_fails s && no_newline (buffer s)).
Proof.
  destruct s as [b sf e f bd]. unfold getline, good, read_error, fail, eof.
  cbn [eofbit failbit badbit buffer source_fails].
  assert (match read_until "010"%char b with
          | (_, Some _) => no_newline b = false
          | (_, None) => no_newline b = true
          end) as Hnl.
  { clear. induction b as [|c b IH]; [done|]. cbn. unfold is_newline.
    destruct (Ascii.eqb c "010"%char); [done|].
    by destruct (read_until "010"%char b) as [l [rest|]]. }
  destruct e, f, bd; cbn; try done.
  destruct (read_until "010"%char b) as [l [rest|]]; rewrite Hnl; cbn.
  - by rewrite andb_false_r.
  - rewrite andb_true_r. unfold underflow. cbn.
    by destruct sf, (is_empty l).
Qed.

(** ** Queries, by lookup *)

Lemma present_lookup (k : string) (t : table) :
  (is_command_present k t).1 = bool_decide (is_Some (t !! k)).
Proof.
  unfold is_command_present, table_count. cbn. destruct (t !! k) as [v|].
  - by rewrite bool_decide_eq_true_2.
  - rewrite bool_decide_eq_false_2; [done|]. by intros [? ?].
Qed.

Lemma get_lookup (k : string) (t : table) :
  (get_command_parametars k t).1 = default [] (t !! k).
Proof.
  unfold get_command_parametars, table_find. by destruct (t !! k).
Qed.

Lemma Forall_wf_In (L : locale) (ls : list src_line) (sl : src_line) :
  Forall (fun sl => wf L sl = true) ls → In sl ls → wf L sl = true.
Proof. intros H Hin. by apply (proj1 (List.Forall_forall _ _) H). Qed.

Lemma wf_single (L : locale) (sl : src_line) :
  wf L sl = true →
  ∀ t, parse L (stringstream (text sl)) t = Some (true, effect L sl t).
Proof.
  intros Hwf t. apply (parse_lines L _ t [sl]); [done|done| |done].
  by constructor.
Qed.

(** ** The directive token *)

Lemma ascii_toupper_names :
  ∀ tok, In tok ["sfx"; "SFX"; "Sfx"] → map_string ascii_toupper tok = "SFX".
Proof. intros tok [<-|[<-|[<-|[]]]]; reflexivity. Qed.

(** C2 (as amended).  On every significant line of the input the token is
    the longest run of non-whitespace characters after the leading
    whitespace, and the key the line populates is that token with every
    character mapped through [toupper] of the current C locale, and no
    other key.  In the "C" locale [toupper] is the ASCII transform, and
    there the tokens [sfx], [SFX] and [Sfx] all populate the key [SFX]. *)
Theorem token_uppercased (L : locale) (s : istream) (t : table)
    (ls : list src_line) (sp tok sep p : string) :
  good s = true → source_fails s = false →
  well_formed L ls = true →
  buffer s = unlines (map text ls) →
  In (Directive sp tok sep p) ls →
  let l := text (Directive sp tok sep p) in
  take_while (nonspace L) (drop_while (isspace L) l) = tok ∧
  (∃ t1, parse L (stringstream l) ∅ = Some (true, t1) ∧
         dom t1 = {[ map_string (toupper L) tok ]}) ∧
  ∃ t', parse L s t = Some (true, t') ∧
        (is_command_present (map_string (toupper L) tok) t').1 = true ∧
        (L = classic →
         (is_command_present (map_string ascii_toupper tok) t').1 = true ∧
         (In tok ["sfx"; "SFX"; "Sfx"] →
          (is_command_present "SFX" t').1 = true)).
Proof.
  intros Hg Hs Hwf%well_formed_Forall Hb Hin l.
  pose proof (Forall_wf_In _ _ _ Hwf Hin) as Hsl.
  destruct (wf_directive _ _ _ _ _ Hsl) as (_ & Htok & _ & _).
  split; [done|]. split.
  { eexists. split; [by apply wf_single|]. cbn [effect].
    fold (upper L tok). apply set_eq. intros k.
    rewrite elem_of_dom, elem_of_singleton.
    destruct (is_empty p).
    - rewrite lookup_subscript. case_decide; [|rewrite lookup_empty];
        split; try done; by intros [? ?].
    - rewrite lookup_push_back, lookup_subscript.
      case_decide; [|rewrite lookup_empty]; split; try done; by intros [? ?]. }
  exists (run_src L ls t). split; [by apply parse_lines|].
  assert ((is_command_present (upper L tok) (run_src L ls t)).1 = true) as Hp.
  { rewrite present_lookup, lookup_run_src.
    rewrite (existsb_occurs L ls _ (upper L tok) Hin) by done.
    by apply bool_decide_eq_true_2. }
  split; [done|]. intros ->. split; [done|].
  intros Hn. rewrite <- (ascii_toupper_names tok Hn). done.
Qed.

Lemma token_uppercased_witness :
  ∃ t', parse classic (stringstream ("SFX A Y 2" +:+ nl +:+ "  sfx A zxc"))
          ∅ = Some (true, t') ∧
        (is_command_present "SFX" t').1 = true.
Proof.
  destruct (token_uppercased classic
              (stringstream ("SFX A Y 2" +:+ nl +:+ "  sfx A zxc")) ∅
              [Directive "" "SFX" " " "A Y 2"; Directive "  " "sfx" " " "A zxc"]
              "  " "sfx" " " "A zxc")
    as (_ & _ & t' & Hp & _ & Hc).
  - reflexivity.
  - reflexivity.
  - vm_compute. reflexivity.
  - vm_compute. reflexivity.
  - simpl. tauto.
  - exists t'. split; [exact Hp|]. apply Hc; [reflexivity|]. simpl. tauto.
Defined.

(** C2 (as stated) fails: the case mapping is that of the C locale in
    force.  Under the Turkish locale the line [fix a] populates the key
    whose second character is the capital dotted I, not the key [FIX]
    that the ASCII transform gives. *)
Lemma toupper_follows_locale :
  ∃ t', parse tr_TR (stringstream "fix a") ∅ = Some (true, t') ∧
        map_string ascii_toupper "fix" = "FIX" ∧
        (is_command_present "FIX" t').1 = false ∧
        (is_command_present (map_string (toupper tr_TR) "fix") t').1 = true.
Proof. eexists. split; [vm_compute; reflexivity|]. by vm_compute. Qed.

(** ** Parameter lines *)

Lemma lookup_parse_lines (L : locale) (s : istream) (t : table)
    (ls : list src_line) :
  good s = true → source_fails s = false →
  well_formed L ls = true →
  buffer s = unlines (map text ls) →
  ∃ t', parse L s t = Some (true, t') ∧
    ∀ k, t' !! k = if existsb (occurs L k) ls
                    then Some (default [] (t !! k) ++ params_for L k ls)
                    else t !! k.
Proof.
  intros Hg Hs Hwf%well_formed_Forall Hb. exists (run_src L ls t).
  split; [by apply parse_lines|]. intros k. apply lookup_run_src.
Qed.

Lemma get_parse_lines (L : locale) (ls : list src_line) (t t' : table)
    (k : string) :
  (t' !! k = if existsb (occurs L k) ls
              then Some (default [] (t !! k) ++ params_for L k ls)
              else t !! k) →
  (get_command_parametars k t').1 =
  (get_command_parametars k t).1 ++ params_for L k ls.
Proof.
  intros H. rewrite !get_lookup, H.
  destruct (existsb (occurs L k) ls) eqn:E; [done|].
  by rewrite params_for_absent, app_nil_r.
Qed.

(** C3.  Let the directive [name] occur, up to case, on exactly [N] lines
    of the input that carry parameter text.  A successful [parse] appends
    to the key of the uppercased name exactly the parameter texts of those
    [N] lines, in the order of the input, so that a key without earlier
    lines holds exactly these [N]; and the parameter text of a line is the
    line from the first character that is not whitespace after the token
    up to its end. *)
Theorem parameters_in_file_order (L : locale) (s : istream) (t : table)
    (ls : list src_line) (name : string) (N : nat) :
  good s = true → source_fails s = false →
  well_formed L ls = true →
  buffer s = unlines (map text ls) →
  length (List.filter (carries L (upper L name)) ls) = N →
  ∃ t', parse L s t = Some (true, t') ∧
    let stored := map param (List.filter (carries L (upper L name)) ls) in
    (get_command_parametars (upper L name) t').1 =
      (get_command_parametars (upper L name) t).1 ++ stored ∧
    ((get_command_parametars (upper L name) t).1 = [] →
     (get_command_parametars (upper L name) t').1 = stored) ∧
    length stored = N ∧
    ∀ sl, In sl (List.filter (carries L (upper L name)) ls) →
      param sl =
      drop_while (isspace L) (drop_while (nonspace L) (drop_while (isspace L) (text sl))).
Proof.
  intros Hg Hs Hwf Hb HN.
  destruct (lookup_parse_lines L s t ls Hg Hs Hwf Hb) as (t' & Hp & Hl).
  exists t'. split; [done|]. cbv zeta.
  pose proof (get_parse_lines L ls t t' _ (Hl (upper L name))) as Hget.
  unfold params_for in Hget.
  split; [done|]. split; [by intros E; rewrite Hget, E|].
  split; [by rewrite length_map|].
  intros sl [Hin Hc]%filter_In.
  pose proof (Forall_wf_In _ _ _ (well_formed_Forall _ _ Hwf) Hin) as Hsl.
  destruct sl as [sp|sp body|sp tok sep p]; [done..|].
  by destruct (wf_directive _ _ _ _ _ Hsl) as (_ & _ & -> & _).
Qed.

Lemma parameters_in_file_order_witness :
  ∃ t', parse classic (stringstream main_input) ∅ = Some (true, t') ∧
        (get_command_parametars "SFX" t').1 =
        ["A Y 2"; "A abc qwe ."; "A zxc abc ."].
Proof.
  destruct (parameters_in_file_order classic (stringstream main_input) ∅
              (src_lines classic main_input) "sfx" 3)
    as (t' & Hp & _ & He & _).
  - reflexivity.
  - reflexivity.
  - vm_compute. reflexivity.
  - vm_compute. reflexivity.
  - vm_compute. reflexivity.
  - exists t'. split; [exact Hp|]. apply He. reflexivity.
Defined.

(** C4.  A directive line whose token is followed by whitespace only
    creates the entry of the uppercased key, or keeps it, and appends no
    parameter line to it.  After a successful [parse] of an input holding
    such a line [is_command_present] is true of the key, and
    [get_command_parametars] returns the empty sequence for it when the
    key had no parameter lines before and no line of the input gives it
    one. *)
Theorem bare_directive_present (L : locale) (s : istream) (t : table)
    (ls : list src_line) (sp tok sep : string) :
  good s = true → source_fails s = false →
  well_formed L ls = true →
  buffer s = unlines (map text ls) →
  In (Directive sp tok sep "") ls →
  let key := upper L tok in
  (∃ t1, parse L (stringstream (text (Directive sp tok sep ""))) t
         = Some (true, t1) ∧
         t1 !! key = Some (default [] (t !! key)) ∧
         ∀ k, k ≠ key → t1 !! k = t !! k) ∧
  ∃ t', parse L s t = Some (true, t') ∧
        (is_command_present key t').1 = true ∧
        ((get_command_parametars key t).1 = [] →
         List.filter (carries L key) ls = [] →
         (get_command_parametars key t').1 = []).
Proof.
  intros Hg Hs Hwf Hb Hin key.
  pose proof (Forall_wf_In _ _ _ (well_formed_Forall _ _ Hwf) Hin) as Hsl.
  split.
  { eexists. split; [by apply wf_single|]. cbn [effect is_empty].
    split; [|intros k Hk]; rewrite lookup_subscript; case_decide; done. }
  destruct (lookup_parse_lines L s t ls Hg Hs Hwf Hb) as (t' & Hp & Hl).
  exists t'. split; [done|]. split.
  - rewrite present_lookup, Hl.
    rewrite (existsb_occurs L ls _ key Hin) by done.
    by apply bool_decide_eq_true_2.
  - intros E1 E2. rewrite (get_parse_lines L ls t t' _ (Hl key)).
    unfold params_for. by rewrite E1, E2.
Qed.

Lemma bare_directive_present_witness :
  ∃ t', parse classic (stringstream ("COMPLEXPREFIXES" +:+ nl)) ∅
        = Some (true, t') ∧
        (is_command_present "COMPLEXPREFIXES" t').1 = true ∧
        (get_command_parametars "COMPLEXPREFIXES" t').1 = [].
Proof.
  destruct (bare_directive_present classic
              (stringstream ("COMPLEXPREFIXES" +:+ nl)) ∅
              [Directive "" "COMPLEXPREFIXES" "" ""; Blank ""]
              "" "COMPLEXPREFIXES" "")
    as (_ & t' & Hp & Hpres & Hget).
  - reflexivity.
  - reflexivity.
  - vm_compute. reflexivity.
  - vm_compute. reflexivity.
  - simpl. tauto.
  - exists t'. split; [exact Hp|]. split; [exact Hpres|].
    apply Hget; vm_compute; reflexivity.
Defined.

(** ** Comments *)

Lemma effect_directive_nonempty (L : locale) (sp tok sep p : string)
    (t : table) :
  effect L (Directive sp tok sep p) t ≠ ∅.
Proof.
  intros H. apply (f_equal (fun m : table => m !! upper L tok)) in H.
  rewrite lookup_effect, lookup_empty in H. unfold occurs in H. cbn in H.
  by rewrite bool_decide_eq_true_2 in H.
Qed.

(** C5.  A [#] inside the parameter text of a line is kept, with all
    that follows it, as part of the stored parameter line.  A line is
    skipped as a comment when [#] is its first character that is not
    whitespace, and a line that leaves no trace in the index is blank or
    has [#] as its first character that is not whitespace. *)
Theorem hash_in_parameter_kept (L : locale) (s : istream) (t : table)
    (ls : list src_line) (sp tok sep before after : string) :
  good s = true → source_fails s = false →
  well_formed L ls = true →
  buffer s = unlines (map text ls) →
  In (Directive sp tok sep (before +:+ String "#"%char after)) ls →
  (∃ t', parse L s t = Some (true, t') ∧
         In (before +:+ String "#"%char after)
            (get_command_parametars (upper L tok) t').1) ∧
  (∀ blanks body t0,
     wf L (Comment blanks body) = true →
     parse L (stringstream (blanks +:+ String "#"%char body)) t0
     = Some (true, t0)) ∧
  (∀ l, no_newline l = true →
     parse L (stringstream l) ∅ = Some (true, ∅) →
     ∃ blanks rest, l = blanks +:+ rest ∧
       forall_string (isspace L) blanks = true ∧
       (rest = "" ∨ ∃ body, rest = String "#"%char body)).
Proof.
  intros Hg Hs Hwf Hb Hin. split; [|split].
  - destruct (lookup_parse_lines L s t ls Hg Hs Hwf Hb) as (t' & Hp & Hl).
    exists t'. split; [done|].
    rewrite (get_parse_lines L ls t t' _ (Hl (upper L tok))).
    apply in_or_app. right. unfold params_for.
    apply (in_map param _ (Directive sp tok sep _)). apply filter_In.
    split; [done|]. unfold carries, occurs. cbn.
    rewrite bool_decide_eq_true_2 by done. by destruct before.
  - intros blanks body t0 Hc. by apply (wf_single L (Comment blanks body)).
  - intros l Hnl Hp.
    pose proof (classify_wf L l Hnl) as Hc.
    rewrite <- (classify_text L l) in Hp.
    rewrite (wf_single L _ Hc) in Hp. injection Hp as Hp.
    pose proof (classify_text L l) as Ht. unfold wf in Hc.
    apply andb_true_iff in Hc as [_ Hc].
    destruct (classify L l) as [b|b body|b tok' sep' p'].
    + cbn in Ht. subst b. exists l, "". rewrite append_nil_r. eauto.
    + apply andb_true_iff in Hc as [Hb' _]. cbn in Ht.
      exists b, (String "#"%char body). eauto.
    + by apply effect_directive_nonempty in Hp.
Qed.

Lemma hash_in_parameter_kept_witness :
  ∃ t', parse classic (stringstream "lang hu_HU #this is not comment") ∅
        = Some (true, t') ∧
        In "hu_HU #this is not comment" (get_command_parametars "LANG" t').1.
Proof.
  destruct (hash_in_parameter_kept classic
              (stringstream "lang hu_HU #this is not comment") ∅
              [Directive "" "lang" " " "hu_HU #this is not comment"]
              "" "lang" " " "hu_HU " "this is not comment")
    as ((t' & Hp & Hi) & _).
  - reflexivity.
  - reflexivity.
  - vm_compute. reflexivity.
  - vm_compute. reflexivity.
  - simpl. tauto.
  - exists t'. split; [exact Hp|exact Hi].
Defined.

(** ** Lines without a directive *)

Lemma run_src_insignificant (L : locale) (ls : list src_line) (t : table) :
  forallb insignificant ls = true → run_src L ls t = t.
Proof.
  induction ls as [|sl ls IH]; [done|]. cbn [forallb].
  intros [Hsl Hls]%andb_true_iff. unfold run_src in *. cbn [fold_left].
  destruct sl; [by apply IH..|done].
Qed.

(** C6.  On an input made of blank and comment lines only, the empty
    input included, [parse] returns [true] and leaves the index as it was
    before the call.  The end of the stream is never a failure: [parse]
    returns [true] on every stream that is at its end already, or that is
    in no failed state and whose source ends without an error. *)
Theorem blank_and_comment_lines (L : locale) (s : istream) (t : table)
    (ls : list src_line) :
  good s = true → source_fails s = false →
  well_formed L ls = true →
  forallb insignificant ls = true →
  buffer s = unlines (map text ls) →
  parse L s t = Some (true, t) ∧
  parse L (stringstream "") t = Some (true, t) ∧
  ∀ s0 t0,
    eofbit s0 = true ∨ failbit s0 || badbit s0 || source_fails s0 = false →
    ∃ t1, parse L s0 t0 = Some (true, t1).
Proof.
  intros Hg Hs Hwf Hins Hb. split; [|split].
  - rewrite (parse_lines L s t ls Hg Hs (well_formed_Forall _ _ Hwf) Hb).
    by rewrite run_src_insignificant.
  - by rewrite parse_outcome.
  - intros s0 t0 H. rewrite parse_outcome. unfold outcome.
    destruct (eofbit s0); [by eexists|].
    destruct H as [H|H]; [done|]. rewrite H. by eexists.
Qed.

Lemma blank_and_comment_lines_witness :
  parse classic
    (stringstream ("#comment1" +:+ nl +:+ nl +:+ "  #comment2" +:+ nl +:+ "  "))
    {[ "SET" := ["UTF-8"] ]}
  = Some (true, {[ "SET" := ["UTF-8"] ]}).
Proof.
  apply (blank_and_comment_lines classic
           (stringstream
              ("#comment1" +:+ nl +:+ nl +:+ "  #comment2" +:+ nl +:+ "  "))
           {[ "SET" := ["UTF-8"] ]}
           [Comment "" "comment1"; Blank ""; Comment "  " "comment2";
            Blank "  "]).
  - reflexivity.
  - reflexivity.
  - vm_compute. reflexivity.
  - reflexivity.
  - vm_compute. reflexivity.
Defined.

(** ** Accumulation *)

(** C7.  [parse] does not reset the index.  On a stream whose reads all
    succeed up to its end, every key stored before the call is still
    there after it, and its parameter lines are the earlier ones, in
    their order, followed by the new lines of the input; an index that
    held something still does.  [clear] empties the index. *)
Theorem parse_accumulates (L : locale) (s : istream) (t : table) :
  good s = true → source_fails s = false →
  (∃ t', parse L s t = Some (true, t') ∧
     (∀ k v, t !! k = Some v →
        t' !! k = Some (v ++ params_for L k (src_lines L (buffer s)))) ∧
     (t ≠ ∅ → t' ≠ ∅)) ∧
  clear t = ∅.
Proof.
  intros Hg Hs. split; [|done].
  destruct (lookup_parse_lines L s t (src_lines L (buffer s)) Hg Hs)
    as (t' & Hp & Hl).
  { apply src_lines_well_formed. }
  { by rewrite src_lines_text. }
  exists t'. split; [done|].
  assert (∀ k v, t !! k = Some v →
            t' !! k = Some (v ++ params_for L k (src_lines L (buffer s))))
    as Hkeep.
  { intros k v Hk. rewrite Hl, Hk.
    destruct (existsb _ _) eqn:E; [done|].
    by rewrite params_for_absent, app_nil_r. }
  split; [done|]. intros Hne Hemp. apply Hne. apply map_empty. intros k.
  destruct (t !! k) as [v|] eqn:Hk; [|done].
  apply Hkeep in Hk. by rewrite Hemp, lookup_empty in Hk.
Qed.

Lemma parse_accumulates_witness :
  ∃ t', parse classic (stringstream ("sfx A zxc abc ." +:+ nl +:+ "TRY x"))
          {[ "SFX" := ["A Y 2"; "A abc qwe ."] ]} = Some (true, t') ∧
        t' !! "SFX" = Some ["A Y 2"; "A abc qwe ."; "A zxc abc ."].
Proof.
  destruct (parse_accumulates classic
              (stringstream ("sfx A zxc abc ." +:+ nl +:+ "TRY x"))
              {[ "SFX" := ["A Y 2"; "A abc qwe ."] ]})
    as ((t' & Hp & Hk & _) & _).
  - reflexivity.
  - reflexivity.
  - exists t'. split; [exact Hp|].
    apply (Hk "SFX" ["A Y 2"; "A abc qwe ."]). vm_compute. reflexivity.
Defined.

(** ** Keys *)

Lemma upper_range_spec (L : locale) (c : ascii) :
  upper_range L = true → is_lower (toupper L c) = false.
Proof.
  unfold upper_range. rewrite forallb_forall. intros H.
  specialize (H (nat_of_ascii c)). rewrite ascii_nat_embedding in H.
  apply negb_true_iff, H. apply in_seq. pose proof (nat_ascii_bounded c). lia.
Qed.

Lemma upper_no_lower (L : locale) (tok : string) :
  upper_range L = true → no_lower (upper L tok) = true.
Proof.
  intros HL. induction tok as [|c tok IH]; [done|]. cbn.
  rewrite (upper_range_spec L c HL). done.
Qed.

Lemma upper_nonempty (L : locale) (tok : string) :
  tok ≠ "" → upper L tok ≠ "".
Proof. by destruct tok. Qed.

Lemma run_lines_src (L : locale) (content : string) (t : table) :
  run_lines L (split_lines content) t = run_src L (src_lines L content) t.
Proof.
  rewrite <- run_lines_text by apply src_lines_wf. f_equal.
  unfold src_lines. rewrite map_map.
  rewrite (map_ext _ id) by (intros l; apply classify_text).
  by rewrite map_id.
Qed.

Lemma keys_ok_run_src (L : locale) (ls : list src_line) (t : table) :
  upper_range L = true → Forall (fun sl => wf L sl = true) ls →
  keys_ok t → keys_ok (run_src L ls t).
Proof.
  intros HL Hwf Ht k Hk. rewrite lookup_run_src in Hk.
  destruct (existsb (occurs L k) ls) eqn:E; [|by apply Ht].
  apply existsb_exists in E as (sl & Hin & Hocc).
  unfold occurs in Hocc. apply bool_decide_eq_true_1 in Hocc.
  pose proof (Forall_wf_In _ _ _ Hwf Hin) as Hsl.
  destruct sl as [sp|sp body|sp tok sep p]; [done..|].
  cbn in Hocc. injection Hocc as <-.
  destruct (wf_directive _ _ _ _ _ Hsl) as (_ & _ & _ & Hne & _).
  split; [by apply upper_nonempty|by apply upper_no_lower].
Qed.

Lemma keys_ok_parse (L : locale) (s : istream) (t : table) :
  upper_range L = true → keys_ok t →
  ∃ r t', parse L s t = Some (r, t') ∧ keys_ok t'.
Proof.
  intros HL Ht. rewrite parse_outcome. unfold outcome.
  destruct (eofbit s); [by eexists _, _|].
  destruct (failbit s || badbit s || source_fails s).
  - eexists _, _. split; [done|]. intros k Hk.
    rewrite lookup_empty in Hk. by destruct Hk.
  - eexists _, _. split; [done|]. rewrite run_lines_src.
    apply keys_ok_run_src; [done|apply src_lines_wf|done].
Qed.

Lemma keys_ok_run (ops : list op) :
  forallb op_upper_range ops = true →
  ∀ t, keys_ok t → ∃ t', run ops t = Some t' ∧ keys_ok t'.
Proof.
  induction ops as [|o ops IH]; intros Hops t Ht; [by exists t|].
  cbn [forallb] in Hops. apply andb_true_iff in Hops as [Ho Hops].
  cbn [run]. destruct o as [|L s]; cbn [apply_op].
  - apply IH; [done|]. intros k Hk. unfold clear in Hk.
    rewrite lookup_empty in Hk. by destruct Hk.
  - destruct (keys_ok_parse L s t Ho Ht) as (r & t' & -> & Ht').
    cbn. by apply IH.
Qed.

Lemma entries_ok_empty : entries_ok ∅.
Proof. intros k v Hk. by rewrite lookup_empty in Hk. Qed.

Lemma entries_ok_run_src (L : locale) (ls : list src_line) (t : table) :
  Forall (fun sl => wf L sl = true) ls →
  entries_ok t → entries_ok (run_src L ls t).
Proof.
  intros Hwf Ht k v Hk. rewrite lookup_run_src in Hk.
  destruct (existsb (occurs L k) ls) eqn:E; [|by apply Ht].
  injection Hk as <-. split.
  - apply existsb_exists in E as (sl & Hin & Hocc).
    unfold occurs in Hocc. apply bool_decide_eq_true_1 in Hocc.
    pose proof (Forall_wf_In _ _ _ Hwf Hin) as Hsl.
    destruct sl as [sp|sp body|sp tok sep p]; [done..|].
    cbn in Hocc. injection Hocc as <-.
    destruct (wf_directive _ _ _ _ _ Hsl) as (_ & _ & _ & Hne & _).
    by apply upper_nonempty.
  - intros p [Hp|Hp]%in_app_or.
    + destruct (t !! k) as [old|] eqn:Hold; [|done].
      by apply (Ht k old Hold).
    + unfold params_for in Hp. apply in_map_iff in Hp as (sl & <- & Hsl).
      apply filter_In in Hsl as [Hin Hc].
      pose proof (Forall_wf_In _ _ _ Hwf Hin) as Hsl.
      unfold carries in Hc. apply andb_true_iff in Hc as [_ Hc].
      destruct sl as [sp|sp body|sp tok sep p]; [done..|]. cbn in *.
      destruct (wf_directive _ _ _ _ _ Hsl) as (_ & _ & _ & _ & _ & Hnl).
      split; [|done]. intros ->. done.
Qed.

Lemma entries_ok_parse (L : locale) (s : istream) (t : table) :
  entries_ok t → ∃ r t', parse L s t = Some (r, t') ∧ entries_ok t'.
Proof.
  intros Ht. rewrite parse_outcome. unfold outcome.
  destruct (eofbit s); [by eexists _, _|].
  destruct (failbit s || badbit s || source_fails s).
  - eexists _, _. split; [done|apply entries_ok_empty].
  - eexists _, _. split; [done|]. rewrite run_lines_src.
    apply entries_ok_run_src; [apply src_lines_wf|done].
Qed.

Lemma entries_ok_run (ops : list op) :
  ∀ t, entries_ok t → ∃ t', run ops t = Some t' ∧ entries_ok t'.
Proof.
  induction ops as [|o ops IH]; intros t Ht; [by exists t|].
  cbn [run]. destruct o as [|L s]; cbn [apply_op].
  - apply IH, entries_ok_empty.
  - destruct (entries_ok_parse L s t Ht) as (r & t' & -> & Ht').
    cbn. by apply IH.
Qed.




(** ** Queries *)

(** C9.  [get_command_parametars] returns the sequence stored for the
    key when the key is in the index and the empty sequence when it is
    not; it always returns a sequence, so an absent key and a key present
    with no parameter line give the same result, and only
    [is_command_present] tells them apart. *)
Theorem get_command_parametars_result (k : string) (t : table) :
  (∀ v, t !! k = Some v → (get_command_parametars k t).1 = v) ∧
  (t !! k = None → (get_command_parametars k t).1 = []) ∧
  (get_command_parametars k ∅).1 = (get_command_parametars k (subscript k ∅)).1 ∧
  (is_command_present k ∅).1 = false ∧
  (is_command_present k (subscript k ∅)).1 = true.
Proof.
  rewrite !get_lookup, !present_lookup, lookup_subscript, lookup_empty.
  rewrite decide_True by done.
  repeat split; try done; by intros; simplify_option_eq.
Qed.

(** C10.  [is_command_present], [get_command_parametars] and [data]
    leave the index as it is; a query for a name that is not in the index
    creates no entry for it, so [is_command_present] answers after the
    query what it answered before. *)
Theorem queries_keep_index (k : string) (t : table) :
  (is_command_present k t).2 = t ∧
  (get_command_parametars k t).2 = t ∧
  (data t).2 = t ∧
  (data t).1 = t ∧
  (is_command_present k (get_command_parametars k t).2).1
    = (is_command_present k t).1 ∧
  (is_command_present k (is_command_present k t).2).1
    = (is_command_present k t).1 ∧
  (is_command_present k (data t).2).1 = (is_command_present k t).1.
Proof.
  unfold get_command_parametars, table_find. by destruct (t !! k).
Qed.

(** ** Examples *)

(** The input of the source's [main], in the "C" locale. *)
Example main_example :
  parse classic (stringstream main_input) ∅ =
  Some (true,
        <[ "SET" := ["UTF-8"] ]>
          (<[ "TRY" := ["abcdef "] ]>
             (<[ "SFX" := ["A Y 2"; "A abc qwe ."; "A zxc abc ."] ]>
                (<[ "COMPLEXPREFIXES" := [] ]>
                   {[ "LANG" :=
                        ["hu_HU #this is not comment. It's part of the parameter"]
                   ]})))).
Proof. vm_compute. reflexivity. Qed.

(** The example of the class documentation, with a comment line and a
    lowercase occurrence of the directive. *)
Example sfx_example :
  parse classic
    (stringstream
       ("SFX A Y 2" +:+ nl +:+ "SFX A abc qwe ." +:+ nl +:+ "#c" +:+ nl +:+
        "sfx A zxc abc ." +:+ nl)) ∅ =
  Some (true, {[ "SFX" := ["A Y 2"; "A abc qwe ."; "A zxc abc ."] ]}).
Proof. vm_compute. reflexivity. Qed.

(** A stream that is in a failed state when [parse] is called, and one
    that is at its end already. *)
Example failed_stream_example :
  parse classic (Istream "SFX A Y 2" false false true false)
    {[ "TRY" := ["abc"] ]} = Some (false, ∅).
Proof. vm_compute. reflexivity. Qed.

Example stream_at_end_example :
  parse classic (Istream "" false true true false) {[ "TRY" := ["abc"] ]} =
  Some (true, {[ "TRY" := ["abc"] ]}).
Proof. vm_compute. reflexivity. Qed.

(** * Further properties *)

(** ** The result of [parse] and the state of the stream *)

(** X1.  [parse] returns [false] exactly when the stream is not at its
    end on entry and either is in a failed state or its source breaks;
    whenever it returns [false], the index is empty. *)
Theorem parse_false_iff (L : locale) (s : istream) (t : table) :
  ∃ r t', parse L s t = Some (r, t') ∧
    (r = false ↔
     eofbit s = false ∧ failbit s || badbit s || source_fails s = true) ∧
    (r = false → t' = ∅).
Proof.
  rewrite parse_outcome. unfold outcome. destruct (eofbit s).
  { eexists _, _. split; [done|]. split; [|done]. split; [done|by intros []]. }
  destruct (failbit s || badbit s || source_fails s).
  - eexists _, _. by repeat split.
  - eexists _, _. split; [done|]. split; [|done]. split; [done|by intros []].
Qed.



Lemma parse_loop_in_result (L : locale) (fuel : nat) :
  ∀ s v t,
    (fun x : bool * table * istream => (x.1.1, x.1.2))
      <$> parse_loop_in fuel L s v t = parse_loop fuel L s v t.
Proof.
  induction fuel as [|fuel IH]; intros s v t; [done|]. cbn.
  destruct (iteration L s v t); [done|apply IH].
Qed.

Lemma ends_line_read_until (b : string) :
  match read_until "010"%char b with
  | (l, Some rest) => ends_line b = ends_line rest
  | (l, None) => ends_line b = is_empty l
  end.
Proof.
  induction b as [|c b IH]; [done|]. cbn [read_until ends_line].
  unfold is_newline. destruct (Ascii.eqb c "010"%char) eqn:Ec.
  { by destruct b. }
  destruct (read_until "010"%char b) as [l [rest|]] eqn:E.
  - destruct b; [done|]. done.
  - destruct b; [done|]. cbn [is_empty]. rewrite IH.
    cbn in E. destruct (Ascii.eqb a "010"%char); [done|].
    destruct (read_until "010"%char b) as [l' [r'|]]; by simplify_eq.
Qed.

Lemma parse_loop_in_good (L : locale) (fuel : nat) :
  ∀ s v t,
    good s = true → source_fails s = false →
    String.length (buffer s) < fuel →
    ∃ t' s', parse_loop_in fuel L s v t = Some (true, t', s') ∧
      eofbit s' = true ∧ badbit s' = false ∧ buffer s' = "" ∧
      failbit s' = ends_line (buffer s).
Proof.
  induction fuel as [|fuel IH]; intros s v t Hg Hs Hlen; [lia|].
  cbn [parse_loop_in]. pose proof (iteration_good L s v t Hg Hs) as Hit.
  pose proof (read_until_split (buffer s)) as Hsp.
  pose proof (ends_line_read_until (buffer s)) as Hend.
  unfold getline. rewrite Hg.
  destruct (read_until "010"%char (buffer s)) as [l [rest|]].
  - destruct Hit as (v' & -> & Hg'). destruct Hsp as [_ Hlt].
    destruct (IH (set_buffer rest s) v' (line_effect L l t))
      as (t' & s' & -> & ? & ? & ? & Hf); [done|done|cbn; lia|].
    exists t', s'. rewrite Hend. by repeat split.
  - rewrite Hit. eexists _, _. split; [done|]. rewrite Hend.
    unfold good in Hg. apply negb_true_iff in Hg.
    apply orb_false_iff in Hg as [[He Hf]%orb_false_iff Hb].
    unfold underflow. rewrite Hs.
    destruct (is_empty l); cbn; by rewrite ?Hb, ?Hf.
Qed.

(** X3.  [parse] reads its stream to the end.  After a call on a stream
    that is good and whose source does not break, the stream the caller
    holds has no character left and has [eofbit] set, and the call has
    returned [true] with the table of [parse]; [failbit] is set as well
    exactly when the content is empty or ends with a newline, the last
    read having extracted nothing. *)
Theorem stream_after_parse (L : locale) (s : istream) (t : table) :
  good s = true → source_fails s = false →
  ∃ t' s', parse_in L s t = Some (true, t', s') ∧
    parse L s t = Some (true, t') ∧
    buffer s' = "" ∧ eofbit s' = true ∧ badbit s' = false ∧
    failbit s' = ends_line (buffer s).
Proof.
  intros Hg Hs.
  destruct (parse_loop_in_good L (S (String.length (buffer s))) s
              (Locals "" "" "") t Hg Hs) as (t' & s' & Hp & ? & ? & ? & ?);
    [lia|].
  exists t', s'. split; [done|]. split; [|done].
  unfold parse. rewrite <- parse_loop_in_result.
  fold (parse_in L s t). unfold parse_in. by rewrite Hp.
Qed.

Lemma stream_after_parse_witness :
  ∃ t' s', parse_in classic (stringstream ("SFX A Y 2" +:+ nl)) ∅
           = Some (true, t', s') ∧
           eof s' = true ∧ fail s' = true.
Proof.
  destruct (stream_after_parse classic (stringstream ("SFX A Y 2" +:+ nl)) ∅)
    as (t' & s' & Hp & _ & _ & He & _ & Hf).
  - reflexivity.
  - reflexivity.
  - exists t', s'. split; [exact Hp|]. unfold eof, fail.
    rewrite He, Hf. split; reflexivity.
Defined.

(** X4.  After [parse] has returned [false] the stream is in a failed
    state and not at its end: the caller's test [in.fail() && !in.eof()]
    still holds. *)
Theorem stream_after_failure (L : locale) (s : istream) (t : table) :
  eofbit s = false → failbit s || badbit s || source_fails s = true →
  ∃ s', parse_in L s t = Some (false, ∅, s') ∧
        fail s' = true ∧ eof s' = false.
Proof.
  intros He Hf. unfold parse_in.
  assert (∀ fuel s v t,
            eofbit s = false → failbit s || badbit s || source_fails s = true →
            String.length (buffer s) < fuel →
            ∃ s', parse_loop_in fuel L s v t = Some (false, ∅, s') ∧
                  fail s' = true ∧ eof s' = false) as H.
  { clear. induction fuel as [|fuel IH]; intros s v t He Hf Hlen; [lia|].
    cbn [parse_loop_in].
    destruct (failbit s || badbit s) eqn:Hfb.
    { rewrite iteration_failed by done. eexists. split; [done|].
      destruct s as [b sf e f bd]. cbn in He, Hfb. subst e.
      unfold getline, good, fail, eof. by destruct f, bd. }
    cbn in Hf.
    assert (good s = true) as Hg.
    { unfold good. rewrite He. cbn. by rewrite Hfb. }
    pose proof (iteration_source_fails L s v t Hg Hf) as Hit.
    pose proof (read_until_split (buffer s)) as Hsp.
    unfold getline. rewrite Hg.
    destruct (read_until "010"%char (buffer s)) as [l [rest|]].
    - destruct Hit as (v' & t' & -> & Hg'). destruct Hsp as [_ Hlt].
      apply IH; [done| |cbn; lia]. cbn.
      apply orb_false_iff in Hfb as [-> ->]. by rewrite Hf.
    - rewrite Hit. eexists. split; [done|]. unfold underflow. rewrite Hf.
      unfold fail, eof. destruct (is_empty l); cbn; rewrite He;
        by rewrite ?orb_true_r. }
  apply H; [done|done|lia].
Qed.

Lemma stream_after_failure_witness :
  ∃ s', parse_in classic
          (Istream ("SFX A Y 2" +:+ nl +:+ "SFX") true false false false)
          {[ "TRY" := ["abc"] ]} = Some (false, ∅, s') ∧
        fail s' = true ∧ eof s' = false.
Proof.
  apply stream_after_failure; reflexivity.
Defined.

(** ** Lines *)

(** X5.  The strings [command] and [parametar_line] live across the
    turns of the loop, but no line inherits anything from an earlier one:
    what a line does to the table does not depend on what they hold. *)
Theorem line_ignores_earlier_locals (L : locale) (v v' : locals) (t : table) :
  line v = line v' → (process_line L v t).2 = (process_line L v' t).2.
Proof. intros E. by rewrite !process_line_effect, E. Qed.

Lemma line_ignores_earlier_locals_witness :
  (process_line classic (Locals "TRY" "SFX" "A Y 2") ∅).2 =
  (process_line classic (Locals "TRY" "" "") ∅).2.
Proof. apply line_ignores_earlier_locals. reflexivity. Defined.

(** ** The index after [parse] *)

Lemma outcome_good (L : locale) (s : istream) (t : table) :
  good s = true → source_fails s = false →
  outcome L s t = (true, run_lines L (split_lines (buffer s)) t).
Proof.
  intros Hg Hs. unfold outcome. unfold good in Hg.
  apply negb_true_iff in Hg.
  apply orb_false_iff in Hg as [[-> ->]%orb_false_iff ->]. by rewrite Hs.
Qed.

Lemma split_lines_append (a b : string) :
  split_lines (a +:+ String "010"%char b) = split_lines a ++ split_lines b.
Proof.
  induction a as [|c a IH]; [done|]. cbn [String.append split_lines].
  rewrite IH. destruct (is_newline c); [done|].
  by destruct (split_lines_cons a) as (l & ls & ->).
Qed.

(** X6.  After a successful [parse], [is_command_present] is true of
    exactly the keys that were present before and the uppercased tokens
    of the directive lines of the input. *)
Theorem present_after_parse (L : locale) (s : istream) (t : table)
    (ls : list src_line) (k : string) :
  good s = true → source_fails s = false →
  well_formed L ls = true →
  buffer s = unlines (map text ls) →
  ∃ t', parse L s t = Some (true, t') ∧
    (is_command_present k t').1 =
    (is_command_present k t).1 || existsb (occurs L k) ls.
Proof.
  intros Hg Hs Hwf Hb.
  destruct (lookup_parse_lines L s t ls Hg Hs Hwf Hb) as (t' & Hp & Hl).
  exists t'. split; [done|]. rewrite !present_lookup, Hl.
  destruct (existsb (occurs L k) ls).
  - rewrite orb_true_r. by apply bool_decide_eq_true_2.
  - by rewrite orb_false_r.
Qed.

Lemma present_after_parse_witness :
  ∃ t', parse classic (stringstream ("sfx A" +:+ nl +:+ "#TRY x")) ∅
        = Some (true, t') ∧
        (is_command_present "SFX" t').1 = true ∧
        (is_command_present "TRY" t').1 = false.
Proof.
  destruct (present_after_parse classic
              (stringstream ("sfx A" +:+ nl +:+ "#TRY x")) ∅
              [Directive "" "sfx" " " "A"; Comment "" "TRY x"] "SFX")
    as (t' & Hp & H1); [reflexivity|reflexivity|vm_compute; reflexivity
                       |vm_compute; reflexivity|].
  destruct (present_after_parse classic
              (stringstream ("sfx A" +:+ nl +:+ "#TRY x")) ∅
              [Directive "" "sfx" " " "A"; Comment "" "TRY x"] "TRY")
    as (t2 & Hp2 & H2); [reflexivity|reflexivity|vm_compute; reflexivity
                        |vm_compute; reflexivity|].
  exists t'. split; [exact Hp|]. split; [exact H1|].
  rewrite Hp in Hp2. injection Hp2 as <-. exact H2.
Defined.

(** X7.  Two calls of [parse] in a row do what one call does on the two
    contents joined by a newline. *)
Theorem parse_then_parse (L : locale) (s1 s2 s : istream) (t : table) :
  good s1 = true → source_fails s1 = false →
  good s2 = true → source_fails s2 = false →
  good s = true → source_fails s = false →
  buffer s = buffer s1 +:+ String "010"%char (buffer s2) →
  ∃ t1, parse L s1 t = Some (true, t1) ∧ parse L s2 t1 = parse L s t.
Proof.
  intros Hg1 Hs1 Hg2 Hs2 Hg Hs Hb. rewrite !parse_outcome.
  rewrite (outcome_good L s1), (outcome_good L s) by done.
  eexists. split; [done|].
  rewrite parse_outcome, (outcome_good L s2) by done.
  rewrite Hb, split_lines_append. unfold run_lines.
  by rewrite fold_left_app.
Qed.

Lemma parse_then_parse_witness :
  ∃ t1, parse classic (stringstream "SFX A Y 2") ∅ = Some (true, t1) ∧
        parse classic (stringstream "sfx A abc") t1 =
        parse classic (stringstream ("SFX A Y 2" +:+ nl +:+ "sfx A abc")) ∅.
Proof.
  apply (parse_then_parse classic (stringstream "SFX A Y 2")
           (stringstream "sfx A abc")
           (stringstream ("SFX A Y 2" +:+ nl +:+ "sfx A abc")) ∅);
    reflexivity.
Defined.

(** X8.  A newline at the end of the input changes nothing: the last
    line is read the same with and without it. *)
Theorem final_newline_irrelevant (L : locale) (s s' : istream) (t : table) :
  good s = true → source_fails s = false →
  good s' = true → source_fails s' = false →
  buffer s' = buffer s +:+ String "010"%char "" →
  parse L s' t = parse L s t.
Proof.
  intros Hg Hs Hg' Hs' Hb. rewrite !parse_outcome.
  rewrite (outcome_good L s), (outcome_good L s') by done.
  rewrite Hb, split_lines_append. unfold run_lines.
  by rewrite fold_left_app.
Qed.

Lemma final_newline_irrelevant_witness :
  parse classic (stringstream ("SFX A Y 2" +:+ nl)) ∅ =
  parse classic (stringstream "SFX A Y 2") ∅.
Proof.
  apply final_newline_irrelevant; reflexivity.
Defined.

Lemma run_src_ext (L : locale) (ls ls' : list src_line) (t : table) :
  (∀ k, existsb (occurs L k) ls = existsb (occurs L k) ls' ∧
        params_for L k ls = params_for L k ls') →
  run_src L ls t = run_src L ls' t.
Proof.
  intros H. apply map_eq. intros k. rewrite !lookup_run_src.
  destruct (H k) as [-> ->]. done.
Qed.

Lemma parse_src_eq (L : locale) (s s' : istream) (t : table)
    (ls ls' : list src_line) :
  good s = true → source_fails s = false →
  good s' = true → source_fails s' = false →
  well_formed L ls = true → well_formed L ls' = true →
  buffer s = unlines (map text ls) →
  buffer s' = unlines (map text ls') →
  run_src L ls t = run_src L ls' t →
  parse L s t = parse L s' t.
Proof.
  intros Hg Hs Hg' Hs' Hwf%well_formed_Forall Hwf'%well_formed_Forall
    Hb Hb' E.
  rewrite (parse_lines L s t ls), (parse_lines L s' t ls') by done.
  by rewrite E.
Qed.

(** X9.  Two neighbouring lines that write to different keys, or of
    which one is no directive, can be exchanged: the index after [parse]
    is the same. *)
Theorem lines_of_different_keys_commute (L : locale) (s s' : istream)
    (t : table) (before after : list src_line) (l1 l2 : src_line) :
  good s = true → source_fails s = false →
  good s' = true → source_fails s' = false →
  well_formed L (before ++ [l1; l2] ++ after) = true →
  key_of L l1 ≠ key_of L l2 →
  buffer s = unlines (map text (before ++ [l1; l2] ++ after)) →
  buffer s' = unlines (map text (before ++ [l2; l1] ++ after)) →
  parse L s t = parse L s' t.
Proof.
  intros Hg Hs Hg' Hs' Hwf Hk Hb Hb'.
  apply (parse_src_eq L s s' t (before ++ [l1; l2] ++ after)
           (before ++ [l2; l1] ++ after)); try done.
  { unfold well_formed in *. rewrite forallb_app in Hwf.
    apply andb_true_iff in Hwf as [Hbf Hwf]. cbn in Hwf.
    apply andb_true_iff in Hwf as [H1 Hwf].
    apply andb_true_iff in Hwf as [H2 Haf].
    rewrite forallb_app. cbn. by rewrite Hbf, H1, H2, Haf. }
  apply run_src_ext. intros k. unfold params_for.
  rewrite !existsb_app, !List.filter_app, !map_app.
  cbn [existsb List.filter app].
  split.
  - by destruct (occurs L k l1), (occurs L k l2).
  - f_equal. f_equal. unfold carries, occurs.
    destruct (decide (key_of L l1 = Some k)) as [E1|E1];
      destruct (decide (key_of L l2 = Some k)) as [E2|E2];
      [congruence|..];
      rewrite ?(bool_decide_eq_true_2 _ E1), ?(bool_decide_eq_true_2 _ E2),
        ?(bool_decide_eq_false_2 _ E1), ?(bool_decide_eq_false_2 _ E2);
      cbn [andb]; by repeat destruct (negb _).
Qed.

Lemma lines_of_different_keys_commute_witness :
  parse classic (stringstream ("SFX A" +:+ nl +:+ "TRY x" +:+ nl +:+ "sfx B"))
    ∅ =
  parse classic (stringstream ("TRY x" +:+ nl +:+ "SFX A" +:+ nl +:+ "sfx B"))
    ∅.
Proof.
  apply (lines_of_different_keys_commute classic _ _ ∅ []
           [Directive "" "sfx" " " "B"]
           (Directive "" "SFX" " " "A") (Directive "" "TRY" " " "x")).
  - reflexivity.
  - reflexivity.
  - reflexivity.
  - reflexivity.
  - vm_compute. reflexivity.
  - vm_compute. discriminate.
  - vm_compute. reflexivity.
  - vm_compute. reflexivity.
Defined.

(** X10.  The indentation of a directive line, the width of the
    whitespace after its token and the case of the token do not matter:
    a line with the same parameter text and a token with the same
    uppercase form gives the same index. *)
Theorem layout_and_case_irrelevant (L : locale) (s s' : istream) (t : table)
    (before after : list src_line) (sp tok sep sp' tok' sep' p : string) :
  good s = true → source_fails s = false →
  good s' = true → source_fails s' = false →
  well_formed L (before ++ [Directive sp tok sep p] ++ after) = true →
  well_formed L (before ++ [Directive sp' tok' sep' p] ++ after) = true →
  upper L tok = upper L tok' →
  buffer s = unlines (map text (before ++ [Directive sp tok sep p] ++ after)) →
  buffer s' =
    unlines (map text (before ++ [Directive sp' tok' sep' p] ++ after)) →
  parse L s t = parse L s' t.
Proof.
  intros Hg Hs Hg' Hs' Hwf Hwf' E Hb Hb'.
  apply (parse_src_eq L s s' t _ _ Hg Hs Hg' Hs' Hwf Hwf' Hb Hb').
  unfold run_src. rewrite !fold_left_app. cbn [fold_left app effect].
  by rewrite E.
Qed.

Lemma layout_and_case_irrelevant_witness :
  parse classic (stringstream ("TRY x" +:+ nl +:+ "SFX A Y 2")) ∅ =
  parse classic (stringstream ("TRY x" +:+ nl +:+ "  sfx    A Y 2")) ∅.
Proof.
  apply (layout_and_case_irrelevant classic _ _ ∅
           [Directive "" "TRY" " " "x"] []
           "" "SFX" " " "  " "sfx" "    " "A Y 2");
    vm_compute; reflexivity.
Defined.

Lemma run_src_significant (L : locale) (ls : list src_line) :
  ∀ t, run_src L (List.filter significant ls) t = run_src L ls t.
Proof.
  unfold run_src. induction ls as [|sl ls IH]; intros t; [done|].
  cbn [List.filter fold_left]. destruct sl; cbn; apply IH.
Qed.

(** X11.  Blank lines and comment lines can be taken out of an input,
    wherever they stand, without any change to the index. *)
Theorem insignificant_lines_removable (L : locale) (s s' : istream)
    (t : table) (ls : list src_line) :
  good s = true → source_fails s = false →
  good s' = true → source_fails s' = false →
  well_formed L ls = true →
  buffer s = unlines (map text ls) →
  buffer s' = unlines (map text (List.filter significant ls)) →
  parse L s t = parse L s' t.
Proof.
  intros Hg Hs Hg' Hs' Hwf Hb Hb'.
  apply (parse_src_eq L s s' t ls (List.filter significant ls)); try done.
  - unfold well_formed in *. rewrite forallb_forall in *.
    intros sl [Hin _]%filter_In. by apply Hwf.
  - by rewrite run_src_significant.
Qed.

Lemma insignificant_lines_removable_witness :
  parse classic
    (stringstream ("#c" +:+ nl +:+ "SFX A" +:+ nl +:+ "  " +:+ nl +:+ "TRY x"))
    ∅ =
  parse classic (stringstream ("SFX A" +:+ nl +:+ "TRY x")) ∅.
Proof.
  apply (insignificant_lines_removable classic _ _ ∅
           [Comment "" "c"; Directive "" "SFX" " " "A"; Blank "  ";
            Directive "" "TRY" " " "x"]);
    vm_compute; reflexivity.
Defined.

(** ** Invariants of the index *)

(** X12.  After any sequence of [clear] and [parse], under any locales,
    no stored parameter line is empty and none holds a newline: a
    directive without parameter text adds no empty string to its
    sequence. *)
Theorem parameter_lines_nonempty (ops : list op) :
  ∃ t, run ops ∅ = Some t ∧
    ∀ k p, In p (get_command_parametars k t).1 →
           p ≠ "" ∧ no_newline p = true.
Proof.
  destruct (entries_ok_run ops ∅ entries_ok_empty) as (t & Hr & Ht).
  exists t. split; [done|]. intros k p. rewrite get_lookup.
  destruct (t !! k) as [v|] eqn:Hk; [|done]. cbn. by apply (Ht k v Hk).
Qed.

Lemma no_lower_false_not_key (t : table) (name : string) :
  keys_ok t → no_lower name = false → t !! name = None.
Proof.
  intros Ht Hn. destruct (t !! name) as [v|] eqn:E; [|done].
  destruct (Ht name) as [_ H]; [by rewrite E|]. congruence.
Qed.

(** X13.  Lookup does not fold case.  After any sequence of [clear] and
    [parse] under locales whose [toupper] returns none of the letters
    [a]..[z], a name that holds one of these letters is the key of no
    entry: [is_command_present] is false of it and
    [get_command_parametars] returns the empty sequence, also when the
    input spells the directive that way. *)
Theorem lowercase_name_not_found (ops : list op) (name : string) :
  forallb op_upper_range ops = true →
  no_lower name = false →
  ∃ t, run ops ∅ = Some t ∧
       (is_command_present name t).1 = false ∧
       (get_command_parametars name t).1 = [].
Proof.
  intros Hops Hn.
  destruct (keys_ok_run ops Hops ∅) as (t & Hr & Ht).
  { intros k Hk. rewrite lookup_empty in Hk. by destruct Hk. }
  exists t. split; [done|].
  rewrite present_lookup, get_lookup, (no_lower_false_not_key t name Ht Hn).
  split; [|done]. apply bool_decide_eq_false_2. by intros [? ?].
Qed.

Lemma lowercase_name_not_found_witness :
  ∃ t, run [op_parse classic (stringstream "sfx A Y 2")] ∅ = Some t ∧
       (is_command_present "sfx" t).1 = false ∧
       (get_command_parametars "sfx" t).1 = [].
Proof.
  apply (lowercase_name_not_found
           [op_parse classic (stringstream "sfx A Y 2")] "sfx");
    vm_compute; reflexivity.
Defined.

(** ** The driver *)

Lemma concat_strings_app (a b : list string) :
  concat_strings (a ++ b) = concat_strings a +:+ concat_strings b.
Proof.
  induction a as [|x a IH]; [done|]. cbn. by rewrite IH, append_assoc.
Qed.

(** X14.  The output of [main] does not determine the index: a
    parameter line that holds a comma and a space is printed like two
    parameter lines. *)
Theorem print_data_ambiguous (es es' : list (string * list string))
    (k : string) (v w : list string) (p q : string) :
  print_data (es ++ [(k, v ++ [p +:+ ", " +:+ q] ++ w)] ++ es') =
  print_data (es ++ [(k, v ++ [p; q] ++ w)] ++ es').
Proof.
  unfold print_data. rewrite !map_app, !concat_strings_app. f_equal.
  cbn [map concat_strings]. f_equal. unfold entry_line. cbn [fst snd].
  do 2 f_equal. rewrite !map_app, !concat_strings_app. f_equal.
  cbn [map concat_strings app]. by rewrite !append_assoc.
Qed.

Lemma toupper_classic_newline (c : ascii) :
  nonspace classic c = true → is_newline (ascii_toupper c) = false.
Proof. destruct c as [[] [] [] [] [] [] [] []]; by vm_compute. Qed.

Lemma upper_classic_no_newline (tok : string) :
  forall_string (nonspace classic) tok = true →
  no_newline (upper classic tok) = true.
Proof.
  induction tok as [|c tok IH]; [done|]. cbn.
  intros [Hc Htok]%andb_true_iff.
  change (toupper classic c) with (ascii_toupper c).
  rewrite (toupper_classic_newline c Hc). cbn. by apply IH.
Qed.

Lemma keys_no_newline (ls : list src_line) (k : string) :
  Forall (fun sl => wf classic sl = true) ls →
  is_Some (run_src classic ls ∅ !! k) → no_newline k = true.
Proof.
  intros Hwf Hk. rewrite lookup_run_src, lookup_empty in Hk.
  destruct (existsb (occurs classic k) ls) eqn:E; [|by destruct Hk].
  apply existsb_exists in E as (sl & Hin & Hocc).
  unfold occurs in Hocc. apply bool_decide_eq_true_1 in Hocc.
  pose proof (Forall_wf_In _ _ _ Hwf Hin) as Hsl.
  destruct sl as [sp|sp body|sp tok sep p]; [done..|].
  cbn in Hocc. injection Hocc as <-. apply upper_classic_no_newline.
  unfold wf in Hsl. apply andb_true_iff in Hsl as [_ Hsl].
  repeat (apply andb_true_iff in Hsl as [Hsl ?]). done.
Qed.

Lemma entry_line_no_newline (kv : string * list string) :
  no_newline kv.1 = true →
  (∀ p, In p kv.2 → no_newline p = true) →
  no_newline (entry_line kv) = true.
Proof.
  destruct kv as [k v]. cbn [fst snd]. intros Hk Hv. unfold entry_line.
  cbn [fst snd]. rewrite !no_newline_app, Hk. cbn.
  induction v as [|p v IH]; [done|]. cbn [map concat_strings].
  rewrite !no_newline_app, (Hv p) by (by left). cbn.
  apply IH. intros p' Hp'. apply Hv. by right.
Qed.

Lemma split_lines_print_data (es : list (string * list string)) :
  Forall (fun kv => no_newline (entry_line kv) = true) es →
  split_lines (print_data es) = map entry_line es ++ [""].
Proof.
  induction 1 as [|kv es Hkv _ IH]; [done|].
  unfold print_data in *. cbn [map concat_strings].
  unfold nl in *. rewrite append_assoc. cbn [String.append].
  rewrite split_lines_app by done. by rewrite IH.
Qed.

(** X15.  In the "C" locale [main] writes one line for every key of the
    index, whatever text it parses and in whatever order the table is
    traversed: the lines of its output are the key, a colon, and the
    parameter lines with a comma and a space after each; nothing follows
    the last newline. *)
Theorem main_output_lines (test : string)
    (traversal : table → list (string * list string)) :
  (∀ t, traversal t ≡ₚ map_to_list t) →
  ∃ t out,
    parse classic (stringstream test) ∅ = Some (true, t) ∧
    main classic test traversal = Some out ∧
    split_lines out = map entry_line (traversal t) ++ [""] ∧
    length (traversal t) = size t.
Proof.
  intros Htr. unfold main.
  rewrite (parse_lines classic (stringstream test) ∅ (src_lines classic test));
    [|done|done|apply src_lines_wf|by rewrite src_lines_text].
  set (t := run_src classic (src_lines classic test) ∅).
  exists t, (print_data (traversal t)). split; [done|]. split; [done|].
  split.
  - apply split_lines_print_data. apply List.Forall_forall. intros [k v] Hin.
    assert (t !! k = Some v) as Hk.
    { apply elem_of_map_to_list. rewrite <- (Htr t).
      by apply list_elem_of_In. }
    apply entry_line_no_newline; cbn [fst snd].
    + apply (keys_no_newline (src_lines classic test));
        [apply src_lines_wf|]. fold t. by rewrite Hk.
    + intros p Hp.
      pose proof (entries_ok_run_src classic (src_lines classic test) ∅
                    (src_lines_wf classic test) entries_ok_empty) as Hok.
      by apply (Hok k v Hk).
  - rewrite (Htr t). apply length_map_to_list.
Qed.

Lemma main_output_lines_witness :
  ∃ t out,
    parse classic (stringstream main_input) ∅ = Some (true, t) ∧
    main classic main_input map_to_list = Some out ∧
    split_lines out = map entry_line (map_to_list t) ++ [""] ∧
    length (map_to_list t) = size t.
Proof.
  apply (main_output_lines main_input map_to_list). intros t. reflexivity.
Defined.
